(** * Verification of the document-retrieval core (document_processor_online.py)

    The development embeds [DocumentProcessorOnline] shallowly:

    - a Python [str] is a [string] whose characters are the code points
      0..255 (Latin-1, which covers the Portuguese stop-word list); the
      character classes of [str.isspace], the regular expression classes
      [\s] and [\w] and [str.lower] are written out for that range;
    - a Python [int] is a [Z]; list slicing follows Python (negative
      indices count from the end, out-of-range indices are clipped);
    - a Python [float] is a real number ([R]): [math.log] is [ln],
      [math.sqrt] is [sqrt]; rounding is not modelled, so the statements
      about weights and similarities are about which entries exist, their
      sign, whether they are zero and how they are ordered, which rounding
      keeps, and not about sums or quotients being exactly 1;
    - a [dict] keyed by tokens is a [gmap string _], a [set] of tokens a
      [gset string]; lists whose order matters stay lists;
    - the [while] loop of [split_into_chunks] runs on fuel, with the outcome
      [Pending] when the fuel is spent before the loop is left; memory is
      not bounded, so a loop that is never left is [Pending] at every fuel
      also where a machine would run out of memory. *)

From Stdlib Require Import ZArith NArith Ascii String List Reals Lra Lia.
From Stdlib Require Import Sorting.Sorted.
From stdpp Require Import base decidable option list gmap strings fin_maps fin_sets.

Set Default Proof Using "Type".

(** ** Outcomes of a call *)

Inductive outcome (A : Type) : Type :=
| Returns (a : A)          (* normal return *)
| Raises (e : string)      (* an exception leaves the call *)
| Pending.                 (* still inside a loop when the fuel ran out *)
Arguments Returns {A} a.
Arguments Raises {A} e.
Arguments Pending {A}.

(** ** Characters and strings *)

Module Text.

Definition code (c : ascii) : N := N_of_ascii c.

Definition between (lo hi n : N) : bool := (lo <=? n)%N && (n <=? hi)%N.

(** [str.isspace], which is also the class [\s] of [re] on [str]. *)
Definition isspace (c : ascii) : bool :=
  let n := code c in
  between 9 13 n || between 28 32 n || (n =? 133)%N || (n =? 160)%N.

(** The class [\w] of [re] on [str]: alphanumeric or underscore. *)
Definition isword (c : ascii) : bool :=
  let n := code c in
  between 48 57 n || between 65 90 n || (n =? 95)%N || between 97 122 n
  || (n =? 170)%N || between 178 179 n || (n =? 181)%N
  || between 185 186 n || between 188 190 n
  || between 192 214 n || between 216 246 n || between 248 255 n.

(** [str.lower] on one character. *)
Definition lower_char (c : ascii) : ascii :=
  let n := code c in
  if between 65 90 n || (between 192 222 n && negb (n =? 215)%N)
  then ascii_of_N (n + 32) else c.

Fixpoint map_chars (f : ascii -> ascii) (s : string) : string :=
  match s with
  | EmptyString => EmptyString
  | String c s' => String (f c) (map_chars f s')
  end.

Definition lower (s : string) : string := map_chars lower_char s.

Definition is_empty (s : string) : bool :=
  match s with EmptyString => true | _ => false end.

Fixpoint lstrip (s : string) : string :=
  match s with
  | EmptyString => EmptyString
  | String c s' => if isspace c then lstrip s' else s
  end.

Fixpoint rstrip (s : string) : string :=
  match s with
  | EmptyString => EmptyString
  | String c s' =>
      let r := rstrip s' in
      if isspace c && is_empty r then EmptyString else String c r
  end.

(** [s.strip()] *)
Definition strip (s : string) : string := rstrip (lstrip s).

(** [sep.join(l)] *)
Fixpoint join (sep : string) (l : list string) : string :=
  match l with
  | [] => EmptyString
  | [x] => x
  | x :: l' => x +:+ sep +:+ join sep l'
  end.

(** [s.split(sep)] for a one-character separator: never the empty list. *)
Fixpoint split_char (sep : ascii) (s : string) : list string :=
  match s with
  | EmptyString => [EmptyString]
  | String c s' =>
      let r := split_char sep s' in
      if Ascii.eqb c sep then EmptyString :: r
      else match r with
           | l :: ls => String c l :: ls
           | [] => [String c EmptyString]
           end
  end.

(** The maximal runs of characters that satisfy [p], in order. *)
Fixpoint runs (p : ascii -> bool) (s : string) : list string :=
  match s with
  | EmptyString => []
  | String c s' =>
      if p c then
        match s' with
        | EmptyString => [String c EmptyString]
        | String c' _ =>
            if p c' then
              match runs p s' with
              | w :: ws => String c w :: ws
              | [] => [String c EmptyString]
              end
            else String c EmptyString :: runs p s'
        end
      else runs p s'
  end.

(** [s.split()]: the whitespace-delimited words. *)
Definition split (s : string) : list string :=
  runs (fun c => negb (isspace c)) s.

(** [re.findall(r'\b\w+\b', s)]: the maximal runs of word characters. *)
Definition findall_words (s : string) : list string := runs isword s.

(** [re.sub(r'\s+', ' ', s)] *)
Fixpoint collapse_spaces (s : string) : string :=
  match s with
  | EmptyString => EmptyString
  | String c s' =>
      if isspace c then
        match s' with
        | EmptyString => String " " EmptyString
        | String c' _ =>
            if isspace c' then collapse_spaces s'
            else String " " (collapse_spaces s')
        end
      else String c (collapse_spaces s')
  end.

Definition newline : ascii := ascii_of_N 10.

(** A string literal in which [|] stands for a line feed. *)
Definition lines (s : string) : string :=
  map_chars (fun c => if Ascii.eqb c "|" then newline else c) s.

End Text.

(** ** Python list slicing *)

Section Slices.
Context {A : Type}.

(** A slice bound, clipped the way [list.__getitem__] clips it. *)
Definition clip_index (n i : Z) : Z :=
  if (i <? 0)%Z then Z.max (i + n) 0 else Z.min i n.

(** [l[i:j]] *)
Definition slice (l : list A) (i j : Z) : list A :=
  let n := Z.of_nat (length l) in
  let lo := clip_index n i in
  let hi := clip_index n j in
  take (Z.to_nat (hi - lo)) (drop (Z.to_nat lo) l).

(** [l[:k]] *)
Definition slice_to (l : list A) (k : Z) : list A := slice l 0 k.
End Slices.

(** ** clean_text and split_into_chunks *)

(** The characters kept by [[^\w\s\-\.\,\;\:\!\?\(\)]]. *)
Definition whitelisted (c : ascii) : bool :=
  Text.isword c || Text.isspace c
  || existsb (Ascii.eqb c) (list_ascii_of_string "-.,;:!?()").

Definition clean_text (text : string) : string :=
  let text := Text.map_chars (fun c => if whitelisted c then c else " "%char) text in
  let text := Text.collapse_spaces text in
  let lines := Text.split_char Text.newline text in
  let cleaned_lines :=
    Text.strip <$> filter (fun line => 10 < String.length (Text.strip line)) lines in
  Text.strip (Text.join (String Text.newline EmptyString) cleaned_lines).

Definition len {A} (l : list A) : Z := Z.of_nat (length l).

(** The body of [while start < len(words)], one iteration per unit of fuel.
    Memory is not modelled: a run that leaves the loop does so here as in the
    code, and a run that never leaves it is [Pending] at every fuel, whether
    the code then spins for ever or, appending a chunk at every pass, ends
    when the machine has no memory left. *)
Fixpoint chunk_loop (fuel : nat) (words : list string) (chunk_size overlap : Z)
    (start : Z) (chunks : list string) : outcome (list string) :=
  match fuel with
  | O => Pending
  | S fuel' =>
      if (start <? len words)%Z then
        let end_ := Z.min (start + chunk_size) (len words) in
        let chunk := Text.join " " (slice words start end_) in
        let chunks :=
          if decide (50 < String.length (Text.strip chunk))
          then chunks ++ [Text.strip chunk] else chunks in
        let start := (end_ - overlap)%Z in
        if (start >=? len words)%Z then Returns chunks
        else chunk_loop fuel' words chunk_size overlap start chunks
      else Returns chunks
  end.

Definition split_into_chunks (fuel : nat) (text : string)
    (chunk_size overlap : Z) : outcome (list string) :=
  let words := Text.split text in
  if (len words <=? chunk_size)%Z then Returns [text]
  else chunk_loop fuel words chunk_size overlap 0 [].

Definition default_chunk_size : Z := 500.
Definition default_overlap : Z := 50.

(** ** tokenize *)

Module Accent.
Definition a_grave : ascii := "224".
Definition a_acute : ascii := "225".
Definition a_tilde : ascii := "227".
Definition c_cedilla : ascii := "231".
Definition e_acute : ascii := "233".
Definition e_circ : ascii := "234".
Definition i_acute : ascii := "237".
Definition o_acute : ascii := "243".
Definition u_acute : ascii := "250".
(** [w pre c post]: the word [pre], the accented letter [c], then [post]. *)
Definition w (pre : string) (c : ascii) (post : string) : string :=
  pre +:+ String c post.
End Accent.

(** The literal stop-word list of [__init__], in source order. *)
Definition stop_word_list : list string :=
  ["a"; "ao"; "aos"; "as"; Accent.w "" Accent.a_grave ""; Accent.w "" Accent.a_grave "s"; "ante"; Accent.w "ap" Accent.o_acute "s"; Accent.w "at" Accent.e_acute ""; "com"; "contra"; "de"; "desde";
    "em"; "entre"; "para"; "per"; "perante"; "por"; "sem"; "sob"; "sobre"; Accent.w "tr" Accent.a_acute "s"; "e"; "mas";
    "nem"; "ou"; "logo"; "pois"; Accent.w "por" Accent.e_acute "m"; "contudo"; "todavia"; "entretanto"; Accent.w "sen" Accent.a_tilde "o"; "que";
    "se"; "como"; "quando"; "onde"; "porque"; Accent.w "porqu" Accent.e_circ ""; "qual"; "quais"; "quanto"; "quantos";
    "quanta"; "quantas"; "quem"; "o"; "os"; "a"; "as"; "um"; "uma"; "uns"; "umas"; "este";
    "esta"; "estes"; "estas"; "esse"; "essa"; "esses"; "essas"; "aquele"; "aquela"; "aqueles";
    "aquelas"; "isto"; "isso"; "aquilo"; "eu"; "tu"; "ele"; "ela"; Accent.w "n" Accent.o_acute "s"; Accent.w "v" Accent.o_acute "s"; "eles"; "elas";
    "me"; "mim"; "comigo"; "te"; "ti"; "contigo"; "se"; "si"; "consigo"; "nos"; "conosco";
    "vos"; "convosco"; "lhe"; "lhes"; "meu"; "minha"; "meus"; "minhas"; "teu"; "tua"; "teus";
    "tuas"; "seu"; "sua"; "seus"; "suas"; "nosso"; "nossa"; "nossos"; "nossas"; "vosso";
    "vossa"; "vossos"; "vossas"; "do"; "da"; "dos"; "das"; "no"; "na"; "nos"; "nas"; "pelo";
    "pela"; "pelos"; "pelas"; "num"; "numa"; "nuns"; "numas"; "dum"; "duma"; "duns"; "dumas";
    "ser"; "estar"; "ter"; "haver"; "ir"; "vir"; "dar"; "fazer"; "dizer"; "ver"; "saber";
    "poder"; "querer"; "ficar"; "parecer"; "deixar"; "passar"; "chegar"; "trazer"; "levar";
    "encontrar"; "sentir"; "continuar"; Accent.w "come" Accent.c_cedilla "ar"; "acabar"; "entrar"; "sair"; "voltar";
    "muito"; "mais"; "menos"; "bem"; "mal"; "melhor"; "pior"; "maior"; "menor"; "grande";
    "pequeno"; "novo"; "velho"; "primeiro"; Accent.w "" Accent.u_acute "ltimo"; "outro"; "mesmo"; "todo"; "cada";
    "algum"; "nenhum"; "qualquer"; "certo"; "tanto"; "quanto"; "pouco"; "bastante"; "demais";
    Accent.w "j" Accent.a_acute ""; "ainda"; "sempre"; "nunca"; "hoje"; "ontem"; Accent.w "amanh" Accent.a_tilde ""; "agora"; "depois"; "antes";
    "aqui"; "ali"; Accent.w "l" Accent.a_acute ""; Accent.w "a" Accent.i_acute ""; Accent.w "c" Accent.a_acute ""; "dentro"; "fora"; "cima"; "baixo"; "perto"; "longe";
    "sim"; Accent.w "n" Accent.a_tilde "o"; "talvez"; Accent.w "tamb" Accent.e_acute "m"; Accent.w "s" Accent.o_acute ""; "apenas"; "inclusive"; Accent.w "at" Accent.e_acute ""; "mesmo"].

Definition stop_words : gset string := list_to_set stop_word_list.

Definition tokenize (text : string) : list string :=
  let words := Text.findall_words (Text.lower text) in
  filter (fun word => 2 < String.length word /\ word ∉ stop_words) words.

(** ** Term frequency, inverse document frequency, TF-IDF *)

#[global] Instance R_eq_dec : EqDecision R := Req_dec_T.
#[global] Instance Rlt_decision (x y : R) : Decision (x < y)%R := Rlt_dec x y.

(** [counts[token] += 1] on a [Counter] or a [defaultdict(int)]. *)
Definition incr (counts : gmap string nat) (token : string) : gmap string nat :=
  <[token := S (default 0%nat (counts !! token))]> counts.

(** [Counter(tokens)] *)
Definition Counter (tokens : list string) : gmap string nat :=
  foldl incr ∅ tokens.

(** The quotients are real numbers; the code rounds each of them, so its
    frequencies need not add up to exactly 1. *)
Definition calculate_tf (tokens : list string) : gmap string R :=
  let total_tokens := length tokens in
  if decide (total_tokens = 0%nat) then ∅
  else (fun count => INR count / INR total_tokens)%R <$> Counter tokens.

(** [set(chunk_tokens)] is walked in the order of [elements]; Python leaves
    the order of a set open, and the counts do not depend on it. *)
Definition set_of (chunk_tokens : list string) : list string :=
  elements (list_to_set chunk_tokens : gset string).

Definition term_chunk_count (all_chunks_tokens : list (list string))
    : gmap string nat :=
  foldl (fun counts chunk_tokens => foldl incr counts (set_of chunk_tokens))
        ∅ all_chunks_tokens.

Definition calculate_idf (all_chunks_tokens : list (list string))
    : gmap string R :=
  let total_chunks := length all_chunks_tokens in
  if decide (total_chunks = 0%nat) then ∅
  else (fun chunk_count => ln (INR total_chunks / INR chunk_count))%R
         <$> term_chunk_count all_chunks_tokens.

(** The loop shared by [calculate_tfidf_matrix] and [search_similar_chunks]:
    every token of [tf_scores] that is a key of [idf_scores] gets the weight
    [tf_score * idf_scores[token]]; the other tokens get no entry. *)
Definition weigh (idf_scores tf_scores : gmap string R) : gmap string R :=
  map_imap (fun token tf_score =>
              (fun idf => tf_score * idf)%R <$> idf_scores !! token) tf_scores.

(** The vocabulary loop: a fresh index for every token not seen before. *)
Definition add_token (acc : gmap string Z * Z) (token : string)
    : gmap string Z * Z :=
  let '(vocabulary, vocab_index) := acc in
  match vocabulary !! token with
  | Some _ => acc
  | None => (<[token := vocab_index]> vocabulary, (vocab_index + 1)%Z)
  end.

Definition build_vocabulary (all_chunks_tokens : list (list string))
    : gmap string Z :=
  fst (foldl (fun acc chunk_tokens => foldl add_token acc (set_of chunk_tokens))
             (∅, 0%Z) all_chunks_tokens).

(** ** The processor *)

Record doc_info := {
  filename : string;
  file_path : string;
  processed_at : string;
  chunk_count : Z;
  file_size : Z;
  file_type : string
}.

Record stats := {
  total_documents : Z;
  total_chunks : Z;
  total_words : Z;
  vocabulary_size : Z;
  last_processed : option string
}.

Definition empty_stats : stats :=
  {| total_documents := 0; total_chunks := 0; total_words := 0;
     vocabulary_size := 0; last_processed := None |}.

Record processor := {
  documents : gmap string doc_info;
  chunks : list string;
  tfidf_matrix : list (gmap string R);
  vocabulary : gmap string Z;
  idf_scores : gmap string R;
  document_stats : stats
}.

(** [__init__] and [clear_data] *)
Definition empty_processor : processor :=
  {| documents := ∅; chunks := []; tfidf_matrix := []; vocabulary := ∅;
     idf_scores := ∅; document_stats := empty_stats |}.

Definition clear_data (self : processor) : processor := empty_processor.

Definition set_idf_scores (self : processor) (idf : gmap string R) : processor :=
  {| documents := documents self; chunks := chunks self;
     tfidf_matrix := tfidf_matrix self; vocabulary := vocabulary self;
     idf_scores := idf; document_stats := document_stats self |}.

(** [calculate_tfidf_matrix] stores the IDF table in [self] and returns the
    matrix and the vocabulary. *)
Definition calculate_tfidf_matrix (self : processor) (chunks : list string)
    : processor * (list (gmap string R) * gmap string Z) :=
  let all_chunks_tokens := tokenize <$> chunks in
  let self := set_idf_scores self (calculate_idf all_chunks_tokens) in
  let vocabulary := build_vocabulary all_chunks_tokens in
  let tfidf_matrix :=
    (fun chunk_tokens => weigh (idf_scores self) (calculate_tf chunk_tokens))
      <$> all_chunks_tokens in
  (self, (tfidf_matrix, vocabulary)).

(** ** process_document *)

(** The [ValueError]s raised inside [process_document]; its [except] clause
    turns each into a failure result. *)
Inductive process_error : Type :=
| UnsupportedFileType
| NoTextExtracted
| NoChunkGenerated.

Inductive process_result : Type :=
| Processed (name : string) (chunks_count vocabulary_size size : Z)
| Failed (e : process_error) (name : string).

(** What [process_document] reads from outside the processor: the lowered
    extension of the file name, the text the extractor returned, the size of
    the file and the two readings of the clock. *)
Record upload := {
  up_filename : string;
  up_file_path : string;
  up_extension : string;
  up_raw_text : string;
  up_file_size : Z;
  up_now_stats : string;
  up_now_document : string
}.

(** The [except] clause is modelled for the three [ValueError]s.  For a
    cleaned text of more than 500 words the chunker is [Pending] at every
    fuel and so is this call: it returns no success.  (On a machine the list
    of chunks grows until memory is exhausted, and the [except] clause turns
    that error into a failure result as well.) *)
Definition process_document (fuel : nat) (self : processor) (up : upload)
    : outcome (processor * process_result) :=
  if negb (bool_decide (up_extension up = ".pdf")
           || bool_decide (up_extension up = ".csv"))
  then Returns (self, Failed UnsupportedFileType (up_filename up))
  else if Text.is_empty (Text.strip (up_raw_text up))
  then Returns (self, Failed NoTextExtracted (up_filename up))
  else
    let cleaned_text := clean_text (up_raw_text up) in
    match split_into_chunks fuel cleaned_text default_chunk_size default_overlap with
    | Pending => Pending
    | Raises e => Raises e
    | Returns [] => Returns (self, Failed NoChunkGenerated (up_filename up))
    | Returns chunks =>
        let '(self, (tfidf_matrix, vocabulary)) :=
          calculate_tfidf_matrix self chunks in
        let info :=
          {| filename := up_filename up; file_path := up_file_path up;
             processed_at := up_now_document up; chunk_count := len chunks;
             file_size := up_file_size up; file_type := up_extension up |} in
        let self :=
          {| documents := <[up_filename up := info]> (documents self);
             chunks := chunks;
             tfidf_matrix := tfidf_matrix;
             vocabulary := vocabulary;
             idf_scores := idf_scores self;
             document_stats :=
               {| total_documents := 1;
                  total_chunks := len chunks;
                  total_words := len (Text.split cleaned_text);
                  vocabulary_size := Z.of_nat (size vocabulary);
                  last_processed := Some (up_now_stats up) |} |} in
        Returns (self, Processed (up_filename up) (len chunks)
                         (Z.of_nat (size vocabulary)) (up_file_size up))
    end.

(** ** Cosine similarity and search *)

(** [sum(...)]: left to right from 0. *)
Definition sum (l : list R) : R := foldl Rplus 0%R l.

(** [vec.values()] *)
Definition values (vec : gmap string R) : list R := (map_to_list vec).*2.

(** [vec[term]] for a key that is present. *)
Definition item (vec : gmap string R) (term : string) : R :=
  default 0%R (vec !! term).

Definition norm (vec : gmap string R) : R :=
  sqrt (sum ((fun score => score ^ 2)%R <$> values vec)).

(** Over the real numbers: the rounding of the sums, of the square roots
    and of the quotient is not modelled, nor the [OverflowError] of
    [score ** 2] for a weight beyond the range of a float.  Which branch is
    taken, the sign of the result and whether it is 0 are as in the code. *)
Definition cosine_similarity (vec1 vec2 : gmap string R) : R :=
  let common_terms : gset string := dom vec1 ∩ dom vec2 in
  if decide (common_terms = ∅) then 0%R
  else
    let dot_product :=
      sum ((fun term => item vec1 term * item vec2 term)%R
             <$> elements common_terms) in
    let norm1 := norm vec1 in
    let norm2 := norm vec2 in
    if decide (norm1 = 0%R \/ norm2 = 0%R) then 0%R
    else (dot_product / (norm1 * norm2))%R.

Record hit := {
  chunk_index : Z;
  content : string;
  similarity : R
}.

(** The [enumerate] loop of [search_similar_chunks]; [None] when
    [self.chunks[i]] raises [IndexError]. *)
Fixpoint collect (chunks : list string) (query_tfidf : gmap string R)
    (i : nat) (rows : list (gmap string R)) (similarities : list hit)
    : option (list hit) :=
  match rows with
  | [] => Some similarities
  | chunk_tfidf :: rows' =>
      let s := cosine_similarity query_tfidf chunk_tfidf in
      if decide (0 < s)%R then
        match chunks !! i with
        | Some c =>
            collect chunks query_tfidf (S i) rows'
              (similarities ++
                 [{| chunk_index := Z.of_nat i; content := c; similarity := s |}])
        | None => None
        end
      else collect chunks query_tfidf (S i) rows' similarities
  end.

(** [list.sort(key=similarity, reverse=True)]: a stable sort, entries of
    equal similarity keep their order. *)
Fixpoint insert_desc (h : hit) (l : list hit) : list hit :=
  match l with
  | [] => [h]
  | h' :: l' =>
      if decide (similarity h < similarity h')%R then h' :: insert_desc h l'
      else h :: l
  end.

Definition sort_desc (l : list hit) : list hit := foldr insert_desc [] l.

Definition search_similar_chunks (self : processor) (query : string)
    (top_k : Z) : list hit :=
  if bool_decide (chunks self = []) || bool_decide (tfidf_matrix self = [])
  then []
  else
    let query_tokens := tokenize query in
    if bool_decide (query_tokens = []) then []
    else
      let query_tf := calculate_tf query_tokens in
      let query_tfidf := weigh (idf_scores self) query_tf in
      if bool_decide (query_tfidf = ∅) then []
      else
        match collect (chunks self) query_tfidf 0 (tfidf_matrix self) [] with
        | Some similarities => slice_to (sort_desc similarities) top_k
        | None => []            (* except Exception: return [] *)
        end.

Definition default_top_k : Z := 3.

(** ** export_data and import_data *)

(** A value found under the key [chunks] of a snapshot: the list that
    [export_data] stores there, or an object without a length ([None], a
    number), for which [len] raises [TypeError]. *)
Inductive chunks_value : Type :=
| ChunkList (l : list string)
| NoLength.

(** A snapshot dictionary: each of the seven keys is present or absent. *)
Record snapshot := {
  s_documents : option (gmap string doc_info);
  s_chunks : option chunks_value;
  s_tfidf_matrix : option (list (gmap string R));
  s_vocabulary : option (gmap string Z);
  s_idf_scores : option (gmap string R);
  s_document_stats : option stats;
  s_exported_at : option string
}.

(** [now] is the value of [datetime.now().isoformat()]. *)
Definition export_data (self : processor) (now : string) : snapshot :=
  {| s_documents := Some (documents self);
     s_chunks := Some (ChunkList (chunks self));
     s_tfidf_matrix := Some (tfidf_matrix self);
     s_vocabulary := Some (vocabulary self);
     s_idf_scores := Some (idf_scores self);
     s_document_stats := Some (document_stats self);
     s_exported_at := Some now |}.

(** The object after the six assignments of [import_data]: a processor when
    [self.chunks] received a list; otherwise [self.chunks] holds the object
    without length and the five other attributes are as listed. *)
Inductive imported : Type :=
| Restored (self : processor)
| ChunksWithoutLength (documents : gmap string doc_info)
    (tfidf_matrix : list (gmap string R)) (vocabulary : gmap string Z)
    (idf_scores : gmap string R) (document_stats : stats).

(** [dict.get(key, default)] never raises.  After the six assignments the
    log line evaluates [len(self.chunks)]: for a list the call returns
    [True]; for an object without length [len] raises [TypeError], and the
    [except] branch returns [False], the attributes already overwritten. *)
Definition import_data (self : processor) (data : snapshot) : imported * bool :=
  let new_documents := default ∅ (s_documents data) in
  let new_chunks := default (ChunkList []) (s_chunks data) in
  let new_tfidf_matrix := default [] (s_tfidf_matrix data) in
  let new_vocabulary := default ∅ (s_vocabulary data) in
  let new_idf_scores := default ∅ (s_idf_scores data) in
  let new_document_stats := default empty_stats (s_document_stats data) in
  match new_chunks with
  | ChunkList l =>
      (Restored {| documents := new_documents;
                   chunks := l;
                   tfidf_matrix := new_tfidf_matrix;
                   vocabulary := new_vocabulary;
                   idf_scores := new_idf_scores;
                   document_stats := new_document_stats |}, true)
  | NoLength =>
      (ChunksWithoutLength new_documents new_tfidf_matrix new_vocabulary
         new_idf_scores new_document_stats, false)
  end.

(** What an attribute holds after [import_data]: the entry of the snapshot,
    or the default when the snapshot has no such entry. *)
Definition entry_or {A} (entry : option A) (default_value value : A) : Prop :=
  (entry = None -> value = default_value) /\
  (forall v, entry = Some v -> value = v).

(** ** Vocabulary of the statements *)

(** Every character of [s] satisfies [p]. *)
Fixpoint all_chars (p : ascii -> bool) (s : string) : bool :=
  match s with
  | EmptyString => true
  | String c s' => p c && all_chars p s'
  end.

(** A non-empty string of characters that satisfy [p]. *)
Definition is_run (p : ascii -> bool) (w : string) : Prop :=
  w <> EmptyString /\ all_chars p w = true.

Definition notspace (c : ascii) : bool := negb (Text.isspace c).

(** How often [t] occurs in a token list. *)
Definition occurrences (t : string) (tokens : list string) : nat :=
  length (filter (fun t' => t = t') tokens).

(** In how many token lists of the corpus [t] occurs. *)
Definition document_frequency (t : string) (all_chunks_tokens : list (list string))
    : nat :=
  length (filter (fun chunk_tokens => t ∈ chunk_tokens) all_chunks_tokens).

(** Results in descending order of similarity. *)
Definition descending (l : list hit) : Prop :=
  StronglySorted (fun a b => (similarity b <= similarity a)%R) l.

(** The squared weights of a vector, as [norm] sums them. *)
Definition squares (v : gmap string R) : list R :=
  (fun score => score ^ 2)%R <$> values v.

(** The word sequence read back from a list of chunks: the words of the
    first chunk, then the words of every later chunk without the first
    [overlap] ones, which repeat the end of the chunk before. *)
Definition reassemble (overlap : Z) (chunks : list string) : list string :=
  match chunks with
  | [] => []
  | c :: cs =>
      Text.split c ++ concat ((fun c => drop (Z.to_nat overlap) (Text.split c)) <$> cs)
  end.

(** The window of [chunk_size] words that starts at word [start]. *)
Definition window (words : list string) (chunk_size start : Z) : string :=
  Text.join " " (slice words start (Z.min (start + chunk_size) (len words))).

(** ** Examples *)

Definition gato_text : string := "gato subiu telhado".

Definition gato_upload : upload :=
  {| up_filename := "gato.pdf"; up_file_path := "uploads/gato.pdf";
     up_extension := ".pdf"; up_raw_text := gato_text; up_file_size := 18;
     up_now_stats := "2025-01-01T00:00:00"; up_now_document := "2025-01-01T00:00:01" |}.

(** The processor after [gato_upload] was processed. *)
Definition gato_processor : processor :=
  match process_document 0 empty_processor gato_upload with
  | Returns (self, _) => self
  | _ => empty_processor
  end.

Definition empty_snapshot : snapshot :=
  {| s_documents := None; s_chunks := None; s_tfidf_matrix := None;
     s_vocabulary := None; s_idf_scores := None; s_document_stats := None;
     s_exported_at := None |}.

(** A snapshot whose [chunks] entry is [None]. *)
Definition chunkless_snapshot : snapshot :=
  {| s_documents := None; s_chunks := Some NoLength; s_tfidf_matrix := None;
     s_vocabulary := None; s_idf_scores := None; s_document_stats := None;
     s_exported_at := None |}.

Definition cachorro_text : string := "cachorro correu parque".

(** The vector stored for the only chunk of the corpus [[gato_text]]. *)
Definition gato_vector : gmap string R :=
  weigh (calculate_idf [tokenize gato_text]) (calculate_tf (tokenize gato_text)).

Definition idf_example : list (list string) := [["gato"; "subiu"]; ["gato"]].

Definition alphabet_text : string :=
  "abcdefghijklmnopqrstuvwxyz abcdefghijklmnopqrstuvwxyz abcdefghijklmnopqrstuvwxyz abcdefghijklmnopqrstuvwxyz".

(** A text of 501 words, for the configuration [chunk_size = overlap = 500]. *)
Definition scenario_text : string := Text.join " " (replicate 501 "palavra").

(** ** get_statistics *)

Record statistics := {
  stat_document_stats : stats;
  stat_chunks_loaded : Z;
  stat_vocabulary_size : Z;
  stat_tfidf_matrix_size : Z;
  stat_status : string
}.

Definition get_statistics (self : processor) : statistics :=
  {| stat_document_stats := document_stats self;
     stat_chunks_loaded := len (chunks self);
     stat_vocabulary_size := Z.of_nat (size (vocabulary self));
     stat_tfidf_matrix_size := len (tfidf_matrix self);
     stat_status := if bool_decide (chunks self = []) then "empty" else "active" |}.

(** The entry that [process_document] writes into [self.documents]. *)
Definition upload_info (up : upload) (chunk_count : Z) : doc_info :=
  {| filename := up_filename up; file_path := up_file_path up;
     processed_at := up_now_document up; chunk_count := chunk_count;
     file_size := up_file_size up; file_type := up_extension up |}.

(** The extensions [process_document] has an extractor for. *)
Definition supported_extension (ext : string) : Prop :=
  ext = ".pdf" \/ ext = ".csv".

Definition blank_upload : upload :=
  {| up_filename := "vazio.csv"; up_file_path := "uploads/vazio.csv";
     up_extension := ".csv"; up_raw_text := "   "; up_file_size := 3;
     up_now_stats := "2025-01-01T00:00:00"; up_now_document := "2025-01-01T00:00:01" |}.

(** The text of 501 words as an upload. *)
Definition long_upload : upload :=
  {| up_filename := "longo.pdf"; up_file_path := "uploads/longo.pdf";
     up_extension := ".pdf"; up_raw_text := scenario_text; up_file_size := 4007;
     up_now_stats := "2025-01-01T00:00:00"; up_now_document := "2025-01-01T00:00:01" |}.

(** A vocabulary whose identifiers are exactly [0 .. next - 1], one per
    token. *)
Definition dense_vocabulary (vocabulary : gmap string Z) (next : Z) : Prop :=
  next = Z.of_nat (size vocabulary) /\
  (forall t i, vocabulary !! t = Some i -> (0 <= i < next)%Z) /\
  (forall t t' i, vocabulary !! t = Some i -> vocabulary !! t' = Some i -> t = t') /\
  (forall i, (0 <= i < next)%Z -> exists t, vocabulary !! t = Some i).

(** The tokens of a corpus. *)
Definition corpus_token (all_chunks_tokens : list (list string)) (t : string) : Prop :=
  exists chunk_tokens, chunk_tokens ∈ all_chunks_tokens /\ t ∈ chunk_tokens.

(** Vectors without negative weights, as TF-IDF produces them. *)
Definition nonnegative (v : gmap string R) : Prop :=
  forall t w, v !! t = Some w -> (0 <= w)%R.

(** The vector [search_similar_chunks] builds for a query. *)
Definition query_tfidf (self : processor) (query : string) : gmap string R :=
  weigh (idf_scores self) (calculate_tf (tokenize query)).

(** [a] is ranked before [b]: a higher similarity, or the same similarity
    and a smaller chunk index. *)
Definition ranked_before (a b : hit) : Prop :=
  (similarity b < similarity a)%R \/
  similarity b = similarity a /\ (chunk_index a < chunk_index b)%Z.

(** The hit for chunk [i] is what the search loop builds for it. *)
Definition hit_of (self : processor) (query : string) (h : hit) (i : nat) : Prop :=
  chunk_index h = Z.of_nat i /\
  chunks self !! i = Some (content h) /\
  exists row, tfidf_matrix self !! i = Some row /\
    similarity h = cosine_similarity (query_tfidf self query) row /\
    (0 < similarity h)%R.

(** Hits in the order of their chunks. *)
Definition index_before (a b : hit) : Prop := (chunk_index a < chunk_index b)%Z.

(** The hits the loop adds for the rows from index [i] on. *)
Definition row_hit (chunks : list string) (q : gmap string R) (i : nat)
    (rows : list (gmap string R)) (h : hit) : Prop :=
  exists (j : nat) (row : gmap string R),
    chunk_index h = Z.of_nat (i + j) /\ chunks !! (i + j)%nat = Some (content h) /\
    rows !! j = Some row /\ similarity h = cosine_similarity q row /\
    (0 < similarity h)%R.

(** The vectors and the IDF table of [self] are the ones
    [calculate_tfidf_matrix] builds from the chunks of [self], as after
    [process_document]. *)
Definition indexed (self : processor) : Prop :=
  tfidf_matrix self = (calculate_tfidf_matrix self (chunks self)).2.1 /\
  idf_scores self = calculate_idf (tokenize <$> chunks self).

(** A token that tells chunks apart: some chunk of the corpus lacks it. *)
Definition distinctive (chunks : list string) (t : string) : Prop :=
  exists c, c ∈ chunks /\ t ∉ tokenize c.

(** A corpus of two chunks, indexed. *)
Definition two_chunks : list string := [gato_text; cachorro_text].

Definition two_chunk_processor : processor :=
  {| documents := ∅; chunks := two_chunks;
     tfidf_matrix := (calculate_tfidf_matrix empty_processor two_chunks).2.1;
     vocabulary := (calculate_tfidf_matrix empty_processor two_chunks).2.2;
     idf_scores := calculate_idf (tokenize <$> two_chunks);
     document_stats := empty_stats |}.

(** A cleaned string: every character is kept by the whitelist, the only
    white-space character is the space, and no two spaces are adjacent. *)
Fixpoint tidy (s : string) : bool :=
  match s with
  | EmptyString => true
  | String c s' =>
      whitelisted c
      && (if Text.isspace c then
            Ascii.eqb c " "
            && match s' with
               | String c' _ => negb (Text.isspace c')
               | EmptyString => true
               end
          else true)
      && tidy s'
  end.

(** The first step of [clean_text]: characters outside the whitelist become
    spaces. *)
Definition blank_out (text : string) : string :=
  Text.map_chars (fun c => if whitelisted c then c else " "%char) text.

(** ** app_production.py: SimpleDocumentProcessor *)

(** [s.endswith(suffix)] *)
Fixpoint endswith (s suffix : string) : bool :=
  String.eqb s suffix ||
  match s with
  | EmptyString => false
  | String _ s' => endswith s' suffix
  end.

(** [sub in s] *)
Fixpoint contains (sub s : string) : bool :=
  String.prefix sub s ||
  match s with
  | EmptyString => false
  | String _ s' => contains sub s'
  end.

(** [s.count(sub)]: the occurrences of [sub] that do not overlap, from the
    left; [wait] is the number of characters still covered by the last
    occurrence counted. *)
Fixpoint count_from (sub : string) (wait : nat) (s : string) : nat :=
  match s with
  | EmptyString =>
      match wait with
      | O => if String.prefix sub EmptyString then 1 else 0
      | S _ => 0
      end
  | String _ s' =>
      match wait with
      | S k => count_from sub k s'
      | O =>
          if String.prefix sub s
          then S (count_from sub (String.length sub - 1) s')
          else count_from sub 0 s'
      end
  end.

Definition count (sub s : string) : nat := count_from sub 0 s.

Module SimpleDocumentProcessor.

(** The loop state of [_split_text]: the chunks emitted so far, the words of
    the chunk being filled and its size counter. *)
Definition split_state : Type := list string * list string * Z.

(** One iteration of [for word in words]. *)
Definition add_word (chunk_size : Z) (st : split_state) (word : string)
    : split_state :=
  let '(chunks, current_chunk, current_size) := st in
  let current_chunk := current_chunk ++ [word] in
  let current_size := (current_size + Z.of_nat (String.length word) + 1)%Z in
  if (current_size >=? chunk_size)%Z
  then (chunks ++ [Text.join " " current_chunk], [], 0%Z)
  else (chunks, current_chunk, current_size).

Definition _split_text (text : string) (chunk_size : Z) : list string :=
  let words := Text.split text in
  let '(chunks, current_chunk, _) :=
    foldl (add_word chunk_size) ([], [], 0%Z) words in
  if bool_decide (current_chunk = []) then chunks
  else chunks ++ [Text.join " " current_chunk].

Definition default_chunk_size : Z := 1000.


(** A chunk handed to [search_relevant_chunks]: a dictionary, whose [text]
    and [metadata] keys may be missing, or a plain string. *)
Inductive chunk : Type :=
  | Dict (text : option string) (metadata : option (gmap string string))
  | Str (s : string).

Record scored_chunk := {
  text : string;
  similarity : R;
  metadata : gmap string string
}.

(** [chunk.get('text', '') if isinstance(chunk, dict) else str(chunk)] *)
Definition chunk_text (c : chunk) : string :=
  match c with
  | Dict text _ => default EmptyString text
  | Str s => s
  end.

(** [chunk.get('metadata', {}) if isinstance(chunk, dict) else {}] *)
Definition chunk_metadata (c : chunk) : gmap string string :=
  match c with
  | Dict _ metadata => default ∅ metadata
  | Str _ => ∅
  end.

(** The inner loop, [for word in query_words]. *)
Definition score (query_words : list string) (chunk_lower : string) : nat :=
  foldl (fun score word =>
           if contains word chunk_lower then score + count word chunk_lower
           else score)
        0 query_words.

(** The outer loop, [for chunk in chunks]. *)
Definition scan (query_words : list string) (chunks : list chunk)
    : list scored_chunk :=
  foldl (fun scored_chunks chunk =>
           let chunk_text := chunk_text chunk in
           let chunk_lower := Text.lower chunk_text in
           let score := score query_words chunk_lower in
           if (0 <? score)%nat
           then scored_chunks ++
                  [{| text := chunk_text;
                      similarity := INR score / INR (length query_words);
                      metadata := chunk_metadata chunk |}]
           else scored_chunks)
        [] chunks.

(** [sort(key=similarity, reverse=True)], stable. *)
Fixpoint insert_desc (c : scored_chunk) (l : list scored_chunk)
    : list scored_chunk :=
  match l with
  | [] => [c]
  | c' :: l' =>
      if decide (similarity c < similarity c')%R then c' :: insert_desc c l'
      else c :: l
  end.

Definition sort_desc (l : list scored_chunk) : list scored_chunk :=
  foldr insert_desc [] l.

Definition search_relevant_chunks (query : string) (chunks : list chunk)
    : list scored_chunk :=
  if bool_decide (chunks = []) || bool_decide (query = EmptyString) then []
  else
    let query_words := Text.split (Text.lower query) in
    let scored_chunks := scan query_words chunks in
    slice_to (sort_desc scored_chunks) 5.

(** What the outer loop appends for one chunk. *)
Definition entry (query_words : list string) (c : chunk) : option scored_chunk :=
  let score := score query_words (Text.lower (chunk_text c)) in
  if (0 <? score)%nat
  then Some {| text := chunk_text c;
               similarity := INR score / INR (length query_words);
               metadata := chunk_metadata c |}
  else None.

(** Some word of the query occurs in the chunk, both in lower case. *)
Definition matches (query : string) (c : chunk) : Prop :=
  exists word, word ∈ Text.split (Text.lower query) /\
               contains word (Text.lower (chunk_text c)) = true.

(** [process_document], from the path and the text read from the file
    ([None] when the import of the PDF reader, opening or reading the file
    raises: the exception is caught and the result is the empty list). *)
Definition process_document (file_path : string) (extracted : option string)
    : list chunk :=
  match extracted with
  | Some text =>
      if endswith file_path ".pdf" then
        let chunks := _split_text text default_chunk_size in
        (fun chunk => Dict (Some chunk) (Some ∅)) <$> chunks
      else if endswith file_path ".txt" then
        let chunks := _split_text text default_chunk_size in
        (fun chunk => Dict (Some chunk) (Some ∅)) <$> chunks
      else []
  | None => []
  end.

End SimpleDocumentProcessor.

(** The size [_split_text] counts for a list of words: one more than the
    length of each word. *)
Definition counted_size (words : list string) : Z :=
  foldr (fun word n => (Z.of_nat (String.length word) + 1 + n)%Z) 0%Z words.

(** What the loop keeps true: the chunks hold the words read so far except
    the ones still in [current_chunk], every chunk is a join of words that
    reached [chunk_size], and the words in [current_chunk] have not. *)
Definition split_inv (chunk_size : Z) (seen : list string) (st : SimpleDocumentProcessor.split_state)
    : Prop :=
  let '(chunks, cur, size) := st in
  concat (Text.split <$> chunks) ++ cur = seen /\
  Forall (is_run notspace) cur /\
  Forall (fun c => c <> EmptyString /\ Text.strip c = c /\
                   (chunk_size <= Z.of_nat (String.length c) + 1)%Z) chunks /\
  size = counted_size cur /\
  (cur = [] \/ (size < chunk_size)%Z).

(** ** database_manager.py: the connection URL of [DatabaseManager] *)

Module DatabaseManager.

(** Python's truth value of a [str] or [None]. *)
Definition truthy (s : option string) : bool :=
  match s with
  | Some (String _ _) => true
  | _ => false
  end.

(** [a or b]. *)
Definition or_else (a b : option string) : option string :=
  if truthy a then a else b.

Fixpoint skip (n : nat) (s : string) : string :=
  match n, s with
  | S k, String _ s' => skip k s'
  | _, _ => s
  end.

(** [s.replace(old, new, 1)]: the first occurrence of [old], from the left. *)
Fixpoint replace_first (old new s : string) : string :=
  if String.prefix old s then new +:+ skip (String.length old) s
  else match s with
       | EmptyString => EmptyString
       | String c s' => String c (replace_first old new s')
       end.

(** The value [__init__] leaves in [self.database_url], from its argument
    and the [DATABASE_URL] variable of the environment. *)
Definition database_url (database_url env : option string) : string :=
  let url := or_else database_url env in
  let url := if negb (truthy url) then "sqlite:///chatbot_local.db"
             else default EmptyString url in
  if String.prefix "postgres://" url
  then replace_first "postgres://" "postgresql://" url
  else url.

End DatabaseManager.


(** * Properties *)

(** ** import_data and export_data *)

(** C9: importing the snapshot that [export_data] returns for a processor,
    into any processor, gives back exactly that processor's documents,
    chunks, TF-IDF vectors, vocabulary, IDF table and statistics, and
    reports success. *)
Theorem import_export_roundtrip (self other : processor) (now : string) :
  import_data other (export_data self now) = (Restored self, true).
Proof. destruct self; reflexivity. Qed.

(** C1 fails on the code: a snapshot with no field at all is accepted, the
    chunks held before are gone and the call reports success. *)
Lemma import_data_missing_fields_accepted :
  chunks gato_processor = [gato_text] /\
  import_data gato_processor empty_snapshot = (Restored empty_processor, true).
Proof. split; reflexivity. Qed.

(** C1, as the code has it: the result never depends on what the processor
    held before.  Unless the [chunks] entry is an object without length,
    the call reports success, also for a snapshot that lacks fields: a field
    the snapshot holds is restored, a field it lacks is reset to its empty
    default.  For a [chunks] entry without length the call reports failure,
    after the other five attributes were overwritten in the same way. *)
Theorem import_data_defaults (self : processor) (data : snapshot) :
  import_data self data = import_data empty_processor data /\
  (s_chunks data <> Some NoLength ->
   exists self',
     import_data self data = (Restored self', true) /\
     entry_or (s_documents data) ∅ (documents self') /\
     entry_or (s_chunks data) (ChunkList []) (ChunkList (chunks self')) /\
     entry_or (s_tfidf_matrix data) [] (tfidf_matrix self') /\
     entry_or (s_vocabulary data) ∅ (vocabulary self') /\
     entry_or (s_idf_scores data) ∅ (idf_scores self') /\
     entry_or (s_document_stats data) empty_stats (document_stats self')) /\
  (s_chunks data = Some NoLength ->
   exists documents' tfidf_matrix' vocabulary' idf_scores' document_stats',
     import_data self data
     = (ChunksWithoutLength documents' tfidf_matrix' vocabulary' idf_scores'
          document_stats', false) /\
     entry_or (s_documents data) ∅ documents' /\
     entry_or (s_tfidf_matrix data) [] tfidf_matrix' /\
     entry_or (s_vocabulary data) ∅ vocabulary' /\
     entry_or (s_idf_scores data) ∅ idf_scores' /\
     entry_or (s_document_stats data) empty_stats document_stats').
Proof.
  split; [reflexivity|]. unfold import_data. split.
  - intros Hsized.
    destruct (default (ChunkList []) (s_chunks data)) as [l|] eqn:Hchunks.
    + eexists. split; [reflexivity|]. cbn.
      rewrite <- Hchunks. repeat split; try (by intros ->); by intros v ->.
    + destruct (s_chunks data) as [[l|]|]; done.
  - intros ->. cbn. do 5 eexists. split; [reflexivity|].
    repeat split; try (by intros ->); by intros v ->.
Qed.

Lemma import_data_defaults_witness :
  s_chunks empty_snapshot <> Some NoLength /\
  s_chunks chunkless_snapshot = Some NoLength /\
  snd (import_data gato_processor empty_snapshot) = true /\
  snd (import_data gato_processor chunkless_snapshot) = false.
Proof.
  destruct (import_data_defaults gato_processor empty_snapshot)
    as (_ & Hsized & _).
  destruct (import_data_defaults gato_processor chunkless_snapshot)
    as (_ & _ & Hnolength).
  split; [discriminate|]. split; [reflexivity|]. split.
  - destruct Hsized as (self' & -> & _); [discriminate|reflexivity].
  - destruct Hnolength as (d & m & v & i & st & -> & _); reflexivity.
Defined.

(** ** Facts about strings *)

Section TextFacts.
Implicit Types (s t w : string) (c : ascii) (p : ascii -> bool).

Lemma app_cons c s t : String c s +:+ t = String c (s +:+ t).
Proof. reflexivity. Qed.

Lemma app_nil_l t : EmptyString +:+ t = t.
Proof. reflexivity. Qed.

Lemma runs_Forall p s : Forall (is_run p) (Text.runs p s).
Proof.
  induction s as [|c s IH]; [constructor|].
  cbn [Text.runs]. destruct (p c) eqn:Hc; [|exact IH].
  destruct s as [|c' s']; [by repeat constructor; cbn; rewrite ?Hc|].
  destruct (p c') eqn:Hc'.
  - destruct (Text.runs p (String c' s')) as [|w ws];
      [by repeat constructor; cbn; rewrite ?Hc|].
    inversion IH as [|? ? [Hw1 Hw2] Hws]; subst.
    constructor; [|done]. split; [done|]. cbn. by rewrite Hc, Hw2.
  - constructor; [|done]. split; [done|]. cbn. by rewrite Hc.
Qed.

Lemma runs_single p w : is_run p w -> Text.runs p w = [w].
Proof.
  intros [Hne Hall]. induction w as [|c w IH]; [done|].
  cbn in Hall. apply andb_true_iff in Hall as [Hc Hw].
  cbn [Text.runs]. rewrite Hc. destruct w as [|c' w']; [done|].
  cbn in Hw. pose proof Hw as Hw'. apply andb_true_iff in Hw' as [Hc' _].
  rewrite Hc'. rewrite IH; done.
Qed.

Lemma runs_app_sep p w c s :
  is_run p w -> p c = false ->
  Text.runs p (w +:+ String c s) = w :: Text.runs p s.
Proof.
  intros [Hne Hall] Hsep. induction w as [|a w IH]; [done|].
  cbn in Hall. apply andb_true_iff in Hall as [Ha Hw].
  rewrite app_cons. cbn [Text.runs]. rewrite Ha.
  destruct w as [|a' w'].
  - rewrite app_nil_l, Hsep. cbn [Text.runs]. by rewrite Hsep.
  - rewrite app_cons. rewrite <- app_cons.
    cbn in Hw. pose proof Hw as Hw'. apply andb_true_iff in Hw' as [Ha' _].
    rewrite Ha'. rewrite IH; done.
Qed.

Lemma space_is_space : notspace " " = false.
Proof. reflexivity. Qed.

Lemma join_cons2 sep x y l :
  Text.join sep (x :: y :: l) = x +:+ sep +:+ Text.join sep (y :: l).
Proof. reflexivity. Qed.

(** Joining words with single spaces and splitting again is the identity. *)
Lemma split_join ws :
  Forall (is_run notspace) ws -> Text.split (Text.join " " ws) = ws.
Proof.
  unfold Text.split. fold notspace.
  induction 1 as [|w ws Hw Hws IH]; [done|].
  destruct ws as [|w' ws]; [by apply runs_single|].
  rewrite join_cons2. change (" " +:+ ?t) with (String " " t).
  rewrite runs_app_sep; [|done|done]. by rewrite IH.
Qed.

Lemma lstrip_run w s : is_run notspace w -> Text.lstrip (w +:+ s) = w +:+ s.
Proof.
  intros [Hne Hall]. destruct w as [|c w]; [done|].
  cbn in Hall. apply andb_true_iff in Hall as [Hc _].
  rewrite app_cons. cbn. unfold notspace in Hc.
  by destruct (Text.isspace c).
Qed.

Lemma rstrip_run w : is_run notspace w -> Text.rstrip w = w.
Proof.
  intros [Hne Hall]. induction w as [|c w IH]; [done|].
  cbn in Hall. apply andb_true_iff in Hall as [Hc Hw].
  cbn. unfold notspace in Hc. destruct (Text.isspace c); [done|].
  destruct w as [|c' w']; [done|]. by rewrite IH.
Qed.

Lemma rstrip_app s t :
  Text.rstrip t <> EmptyString -> Text.rstrip (s +:+ t) = s +:+ Text.rstrip t.
Proof.
  intros Ht. induction s as [|c s IH]; [done|].
  rewrite !app_cons. cbn. rewrite IH.
  destruct (s +:+ Text.rstrip t) eqn:E.
  - destruct s; [|done]. rewrite app_nil_l in E. done.
  - by rewrite andb_false_r.
Qed.

Lemma app_not_empty s t : s <> EmptyString -> s +:+ t <> EmptyString.
Proof. by destruct s. Qed.

Lemma join_not_empty w ws :
  Forall (is_run notspace) (w :: ws) -> Text.join " " (w :: ws) <> EmptyString.
Proof.
  intros H. inversion H as [|? ? [Hne _] _]; subst.
  destruct ws; [done|]. rewrite join_cons2. by apply app_not_empty.
Qed.

Lemma rstrip_join ws :
  Forall (is_run notspace) ws -> Text.rstrip (Text.join " " ws) = Text.join " " ws.
Proof.
  induction 1 as [|w ws Hw Hws IH]; [done|].
  destruct ws as [|w' ws]; [by apply rstrip_run|].
  rewrite join_cons2.
  assert (Text.rstrip (Text.join " " (w' :: ws)) <> EmptyString) as Hne
    by (rewrite IH; by apply join_not_empty).
  assert (Text.rstrip (" " +:+ Text.join " " (w' :: ws))
          = " " +:+ Text.join " " (w' :: ws)) as Hsp
    by (by rewrite rstrip_app, IH).
  rewrite rstrip_app; rewrite Hsp; done.
Qed.

(** A join of words has no white space at either end. *)
Lemma strip_join ws :
  Forall (is_run notspace) ws -> Text.strip (Text.join " " ws) = Text.join " " ws.
Proof.
  intros H. unfold Text.strip.
  assert (Text.lstrip (Text.join " " ws) = Text.join " " ws) as ->.
  { destruct H as [|w ws Hw Hws]; [done|].
    destruct ws; [|rewrite join_cons2; by apply lstrip_run].
    cbn [Text.join]. destruct Hw as [Hne Hall]. destruct w as [|c w]; [done|].
    cbn in Hall. apply andb_true_iff in Hall as [Hc _].
    cbn. unfold notspace in Hc. by destruct (Text.isspace c). }
  by apply rstrip_join.
Qed.

Lemma rstrip_idemp s : Text.rstrip (Text.rstrip s) = Text.rstrip s.
Proof.
  induction s as [|c s IH]; [done|].
  cbn. destruct (Text.isspace c && Text.is_empty (Text.rstrip s)) eqn:E; [done|].
  cbn. by rewrite IH, E.
Qed.

Lemma lstrip_head s :
  Text.lstrip s = EmptyString \/
  exists c s', Text.lstrip s = String c s' /\ Text.isspace c = false.
Proof.
  induction s as [|c s IH]; [by left|].
  cbn. destruct (Text.isspace c) eqn:E; [done|]. right. eauto.
Qed.

Lemma strip_idemp s : Text.strip (Text.strip s) = Text.strip s.
Proof.
  unfold Text.strip.
  destruct (lstrip_head s) as [->|(c & s' & -> & Hc)]; [done|].
  assert (Text.lstrip (Text.rstrip (String c s')) = Text.rstrip (String c s')) as ->.
  { cbn. rewrite Hc. cbn. by rewrite Hc. }
  apply rstrip_idemp.
Qed.

Lemma collapse_spaces_chars s :
  all_chars (fun c => negb (Ascii.eqb c Text.newline)) (Text.collapse_spaces s) = true.
Proof.
  induction s as [|c s IH]; [done|].
  cbn [Text.collapse_spaces]. destruct (Text.isspace c) eqn:Hc.
  - destruct s as [|c' s']; [done|].
    destruct (Text.isspace c'); [done|]. cbn [all_chars]. by rewrite IH.
  - cbn [all_chars]. rewrite IH, andb_true_r.
    destruct (Ascii.eqb_spec c Text.newline) as [->|]; [done|done].
Qed.

Lemma split_char_absent sep s :
  all_chars (fun c => negb (Ascii.eqb c sep)) s = true ->
  Text.split_char sep s = [s].
Proof.
  induction s as [|c s IH]; [done|].
  cbn. intros [Hc Hs]%andb_true_iff. rewrite IH by done.
  by destruct (Ascii.eqb c sep).
Qed.
End TextFacts.

(** ** split_into_chunks: the single-chunk branch *)

Lemma split_into_chunks_at_most (fuel : nat) (text : string)
    (chunk_size overlap : Z) :
  (len (Text.split text) <= chunk_size)%Z ->
  split_into_chunks fuel text chunk_size overlap = Returns [text].
Proof.
  intros Hle. unfold split_into_chunks.
  destruct (Z.leb_spec (len (Text.split text)) chunk_size) as [_|Hgt]; [done|lia].
Qed.

(** C10: when the text has at most [chunk_size] words the result is the
    one-element list holding the text itself, whatever its length: the
    50-character filter is not applied, and a text without any word gives
    one chunk, not the empty list. *)
Theorem split_into_chunks_short (fuel : nat) (text : string)
    (chunk_size overlap : Z) :
  (len (Text.split text) <= chunk_size)%Z ->
  split_into_chunks fuel text chunk_size overlap = Returns [text] /\
  (Text.split text = [] ->
   split_into_chunks fuel text chunk_size overlap <> Returns []).
Proof.
  intros Hle. rewrite split_into_chunks_at_most by done. by split.
Qed.

Lemma split_into_chunks_short_witness :
  (len (Text.split "") <= default_chunk_size)%Z /\
  split_into_chunks 0 "" default_chunk_size default_overlap = Returns [""].
Proof.
  split; [vm_compute; discriminate|].
  apply (split_into_chunks_short 0 "" default_chunk_size default_overlap).
  vm_compute; discriminate.
Defined.

(** ** split_into_chunks: the window loop *)

(** Once [overlap] is at least 1 the loop cannot be left: the next [start]
    is [end - overlap], below the word count, and both exits ask for a
    [start] at or beyond it. *)
Lemma chunk_loop_pending (fuel : nat) (words : list string)
    (chunk_size overlap start : Z) (chunks : list string) :
  (1 <= overlap)%Z -> (start < len words)%Z ->
  chunk_loop fuel words chunk_size overlap start chunks = Pending.
Proof.
  intros Hov. revert start chunks.
  induction fuel as [|fuel IH]; intros start chunks Hstart; [done|].
  simpl.
  destruct (Z.ltb_spec start (len words)) as [_|?]; [|lia].
  destruct (Z.geb_spec (Z.min (start + chunk_size) (len words) - overlap)
              (len words)) as [?|?]; [lia|].
  apply IH. lia.
Qed.

(** With [chunk_size <= overlap <= 0] the window start never goes above 0. *)
Lemma chunk_loop_pending_backwards (fuel : nat) (words : list string)
    (chunk_size overlap start : Z) (chunks : list string) :
  (chunk_size <= overlap)%Z -> (overlap <= 0)%Z ->
  (start <= 0)%Z -> (0 < len words)%Z ->
  chunk_loop fuel words chunk_size overlap start chunks = Pending.
Proof.
  intros Hcs Hov. revert start chunks.
  induction fuel as [|fuel IH]; intros start chunks Hstart Hlen; [done|].
  cbn [chunk_loop].
  destruct (Z.ltb_spec start (len words)) as [_|?]; [|lia].
  destruct (Z.geb_spec (Z.min (start + chunk_size) (len words) - overlap)
              (len words)) as [?|?]; [lia|].
  apply IH; lia.
Qed.

(** With more words than [chunk_size] and an overlap of at least one word
    (the default is 50) the call does not return, whatever the fuel. *)
Theorem split_into_chunks_pending (fuel : nat) (text : string)
    (chunk_size overlap : Z) :
  (1 <= overlap)%Z -> Text.split text <> [] ->
  (chunk_size < len (Text.split text))%Z ->
  split_into_chunks fuel text chunk_size overlap = Pending.
Proof.
  intros Hov Hne Hlt. unfold split_into_chunks.
  destruct (Z.leb_spec (len (Text.split text)) chunk_size) as [?|_]; [lia|].
  apply chunk_loop_pending; [done|].
  unfold len. destruct (Text.split text); [done|simpl; lia].
Qed.

(** Hence a document that [process_document] stores has exactly one chunk,
    its cleaned text: a longer text never comes back from the chunker. *)
Lemma process_document_one_chunk (fuel : nat) (self self' : processor)
    (up : upload) (name : string) (n v s : Z) :
  process_document fuel self up = Returns (self', Processed name n v s) ->
  chunks self' = [clean_text (up_raw_text up)].
Proof.
  unfold process_document. destruct (negb _); [done|].
  destruct (Text.is_empty _); [done|].
  unfold split_into_chunks.
  destruct (Z.leb_spec (len (Text.split (clean_text (up_raw_text up))))
              default_chunk_size) as [_|Hgt].
  - cbn. by intros [= <- _ _ _ _].
  - rewrite chunk_loop_pending; [done|done|].
    unfold default_chunk_size in Hgt. lia.
Qed.

Lemma split_scenario_text : Text.split scenario_text = replicate 501 "palavra".
Proof.
  apply split_join, Forall_replicate. split; [done|reflexivity].
Qed.

(** C2 fails on the code.  With [chunk_size = overlap = 500] a three-word
    text is chunked without any error and a text of 501 words keeps the
    loop running whatever the fuel; likewise with [chunk_size = overlap = 1]
    for a text of two words. *)
Lemma split_into_chunks_overlap_not_rejected :
  split_into_chunks 0 gato_text 500 500 = Returns [gato_text] /\
  (forall fuel, split_into_chunks fuel scenario_text 500 500 = Pending) /\
  (forall fuel, split_into_chunks fuel "a b" 1 1 = Pending).
Proof.
  split; [reflexivity|]. split.
  - intros fuel. apply split_into_chunks_pending; rewrite ?split_scenario_text;
      [lia|done|]. unfold len. rewrite length_replicate. lia.
  - intros fuel. apply split_into_chunks_pending; [lia|done|vm_compute; done].
Qed.

(** Under [overlap >= chunk_size] the window start cannot move forward, so
    the loop, once entered, is never left. *)
Lemma split_into_chunks_stuck (fuel : nat) (text : string)
    (chunk_size overlap : Z) :
  (chunk_size <= overlap)%Z -> Text.split text <> [] ->
  (chunk_size < len (Text.split text))%Z ->
  split_into_chunks fuel text chunk_size overlap = Pending.
Proof.
  intros Hcs Hne Hlt.
  destruct (Z.le_gt_cases overlap 0) as [Hov|Hov];
    [|apply split_into_chunks_pending; [lia|done|done]].
  unfold split_into_chunks.
  destruct (Z.leb_spec (len (Text.split text)) chunk_size) as [?|_]; [lia|].
  apply chunk_loop_pending_backwards; [done|done|lia|].
  unfold len. destruct (Text.split text); [done|cbn; lia].
Qed.

(** C2, as the code has it: no configuration is rejected.  With
    [overlap >= chunk_size] a text of at most [chunk_size] words comes back
    as the single chunk and a text without words gives the empty list, both
    without a pass of the loop; for every other text the loop is entered and
    the call never returns a result. *)
Theorem split_into_chunks_no_configuration_check (text : string)
    (chunk_size overlap : Z) :
  (chunk_size <= overlap)%Z ->
  ((len (Text.split text) <= chunk_size)%Z ->
   forall fuel, split_into_chunks fuel text chunk_size overlap = Returns [text]) /\
  (Text.split text = [] -> (chunk_size < 0)%Z ->
   forall fuel, split_into_chunks (S fuel) text chunk_size overlap = Returns []) /\
  (Text.split text <> [] -> (chunk_size < len (Text.split text))%Z ->
   forall fuel, split_into_chunks fuel text chunk_size overlap = Pending).
Proof.
  intros Hcs. split; [|split].
  - intros Hle fuel. by apply split_into_chunks_at_most.
  - intros Hwords Hneg fuel. unfold split_into_chunks. rewrite Hwords.
    destruct (Z.leb_spec (len (@nil string)) chunk_size) as [Hle|_];
      [unfold len in Hle; cbn in Hle; lia|done].
  - intros Hne Hlt fuel. by apply split_into_chunks_stuck.
Qed.

Lemma split_into_chunks_no_configuration_check_witness :
  (2 <= 2)%Z /\ Text.split "a b c" <> [] /\
  (2 < len (Text.split "a b c"))%Z /\
  split_into_chunks 1000 "a b c" 2 2 = Pending.
Proof.
  assert (Text.split "a b c" <> []) as Hne by (vm_compute; discriminate).
  assert (2 < len (Text.split "a b c"))%Z as Hlt by (vm_compute; reflexivity).
  split; [lia|]. split; [exact Hne|]. split; [exact Hlt|].
  destruct (split_into_chunks_no_configuration_check "a b c" 2 2) as (_ & _ & H);
    [lia|].
  exact (H Hne Hlt 1000).
Defined.

(** ** clean_text *)

(** The white-space runs are collapsed before the text is split into lines,
    so the split always finds one line: the text is kept whole when it is
    longer than 10 characters and dropped whole otherwise. *)
Lemma clean_text_one_line (text : string) :
  let t := Text.strip (Text.collapse_spaces
             (Text.map_chars (fun c => if whitelisted c then c else " "%char) text)) in
  clean_text text = if decide (10 < String.length t) then t else EmptyString.
Proof.
  unfold clean_text. cbv zeta.
  rewrite (split_char_absent _ _ (collapse_spaces_chars _)).
  cbn [filter list_filter]. case_decide as Hlen.
  - cbn. apply strip_idemp.
  - reflexivity.
Qed.

(** C6 on the code: the short first line is kept and glued to the second. *)
Theorem clean_text_keeps_short_line :
  clean_text (Text.lines "abc|this line is long enough")
  = "abc this line is long enough".
Proof. vm_compute. reflexivity. Qed.

(** ** split_into_chunks: what the windows cover *)

Lemma slice_take_drop {A} (l : list A) (i j : Z) :
  (0 <= i <= j)%Z -> (j <= len l)%Z ->
  slice l i j = take (Z.to_nat (j - i)) (drop (Z.to_nat i) l).
Proof.
  intros Hij Hj. unfold slice, clip_index, len in *.
  destruct (Z.ltb_spec i 0); [lia|]. destruct (Z.ltb_spec j 0); [lia|].
  by rewrite !Z.min_l by lia.
Qed.

(** With no overlap and windows that all pass the 50-character filter, the
    loop returns within [len words - start] iterations and its chunks hold
    the words from [start] on, in order. *)
Lemma chunk_loop_partition (fuel : nat) (words : list string) (chunk_size : Z) :
  Forall (is_run notspace) words -> (0 < chunk_size)%Z ->
  forall (start : Z) (chunks : list string),
    (0 <= start < len words)%Z -> (len words - start <= Z.of_nat fuel)%Z ->
    (forall j, (0 <= j)%Z -> (start + j * chunk_size < len words)%Z ->
               50 < String.length (window words chunk_size (start + j * chunk_size))) ->
    exists rest,
      chunk_loop fuel words chunk_size 0 start chunks = Returns (chunks ++ rest) /\
      concat (Text.split <$> rest) = drop (Z.to_nat start) words.
Proof.
  intros Hwords Hcs. induction fuel as [|fuel IH]; intros start chunks Hstart Hfuel Hlong;
    [lia|].
  cbn [chunk_loop]. destruct (Z.ltb_spec start (len words)) as [_|?]; [|lia].
  set (e := Z.min (start + chunk_size) (len words)).
  assert (slice words start e
          = take (Z.to_nat (e - start)) (drop (Z.to_nat start) words)) as Hslice
    by (apply slice_take_drop; lia).
  assert (Forall (is_run notspace) (slice words start e)) as Hruns
    by (rewrite Hslice; by apply Forall_take, Forall_drop).
  rewrite (strip_join _ Hruns).
  pose proof (Hlong 0%Z ltac:(lia) ltac:(lia)) as H0.
  replace (start + 0 * chunk_size)%Z with start in H0 by lia.
  unfold window in H0. fold e in H0. rewrite decide_True by done.
  destruct (Z.geb_spec (e - 0) (len words)) as [Hend|Hmore].
  - exists [Text.join " " (slice words start e)]. split; [done|].
    cbn. rewrite app_nil_r, (split_join _ Hruns), Hslice.
    apply take_ge. rewrite length_drop. unfold len in *. lia.
  - assert (e = (start + chunk_size)%Z) as He by lia.
    destruct (IH e (chunks ++ [Text.join " " (slice words start e)]))
      as (rest & Hloop & Hrest); [lia|lia| |].
    + intros j Hj Hlt. replace (e + j * chunk_size)%Z
        with (start + (j + 1) * chunk_size)%Z by lia.
      apply Hlong; lia.
    + exists (Text.join " " (slice words start e) :: rest). split.
      * replace (e - 0)%Z with e by lia. rewrite Hloop. by rewrite <- app_assoc.
      * cbn. rewrite Hrest, (split_join _ Hruns), Hslice.
        replace (Z.to_nat e) with (Z.to_nat start + Z.to_nat (e - start))%nat by lia.
        rewrite <- drop_drop. apply take_drop.
Qed.

Lemma reassemble_no_overlap (chunks : list string) :
  reassemble 0 chunks = concat (Text.split <$> chunks).
Proof.
  destruct chunks as [|c cs]; reflexivity.
Qed.

(** C5 fails on the code: three words in windows of two, without overlap,
    give no chunk at all (both windows are under 51 characters), so every
    word is lost. *)
Lemma split_into_chunks_drops_short_windows :
  (2 <= len (Text.split "a b c"))%Z /\
  split_into_chunks 2 "a b c" 2 0 = Returns [] /\
  reassemble 0 [] <> Text.split "a b c".
Proof.
  split; [vm_compute; discriminate|].
  split; [reflexivity|vm_compute; discriminate].
Qed.

(** C5, as the code has it: the chunks give back the word sequence of the
    text when the text has exactly [chunk_size] words (one chunk, the text),
    or when there is no overlap and every window of [chunk_size] words is
    longer than 50 characters; the call then returns once the fuel covers
    the word count. *)
Theorem split_into_chunks_reassemble (fuel : nat) (text : string)
    (chunk_size overlap : Z) :
  (chunk_size <= len (Text.split text))%Z ->
  (len (Text.split text) = chunk_size \/
   (0 < chunk_size)%Z /\ overlap = 0%Z /\
   forall j, (0 <= j)%Z -> (j * chunk_size < len (Text.split text))%Z ->
             50 < String.length (window (Text.split text) chunk_size (j * chunk_size))) ->
  (len (Text.split text) <= Z.of_nat fuel)%Z ->
  exists chunks,
    split_into_chunks fuel text chunk_size overlap = Returns chunks /\
    reassemble overlap chunks = Text.split text.
Proof.
  intros Hge Hcase Hfuel. unfold split_into_chunks.
  destruct (Z.leb_spec (len (Text.split text)) chunk_size) as [Hle|Hgt].
  { exists [text]. split; [done|]. cbn. apply app_nil_r. }
  destruct Hcase as [?|(Hcs & -> & Hlong)]; [lia|].
  destruct (chunk_loop_partition fuel (Text.split text) chunk_size
              (runs_Forall _ _) Hcs 0 []) as (rest & Hloop & Hrest); [lia|lia|done|].
  exists rest. split; [done|]. by rewrite reassemble_no_overlap.
Qed.

Lemma split_into_chunks_reassemble_witness :
  exists chunks,
    split_into_chunks 4 alphabet_text 2 0 = Returns chunks /\
    reassemble 0 chunks = Text.split alphabet_text.
Proof.
  apply (split_into_chunks_reassemble 4 alphabet_text 2 0).
  - vm_compute; discriminate.
  - right. split; [lia|]. split; [reflexivity|]. intros j Hj Hlt.
    assert (j = 0 \/ j = 1)%Z as [-> | ->]
      by (change (len (Text.split alphabet_text)) with 4%Z in Hlt; lia);
      vm_compute; lia.
  - vm_compute; discriminate.
Defined.

(** ** Counting tokens *)

Section Counting.
Implicit Types (m : gmap string nat) (t : string) (l tokens : list string)
  (all : list (list string)).

Lemma incr_lookup m t t' :
  incr m t !! t' = if decide (t = t') then Some (S (default 0 (m !! t))) else m !! t'.
Proof. unfold incr. apply lookup_insert. Qed.

Lemma occurrences_cons t a l :
  occurrences t (a :: l)
  = if decide (t = a) then S (occurrences t l) else occurrences t l.
Proof. unfold occurrences. rewrite filter_cons. by case_decide. Qed.

Lemma foldl_incr_lookup l m t :
  foldl incr m l !! t
  = match occurrences t l with
    | O => m !! t
    | S k => Some (default 0 (m !! t) + S k)
    end.
Proof.
  revert m. induction l as [|a l IH]; intros m; [done|].
  cbn [foldl]. rewrite IH, incr_lookup, occurrences_cons.
  destruct (decide (t = a)) as [->|Hne].
  - rewrite decide_True by done. destruct (occurrences a l); cbn; f_equal; lia.
  - rewrite decide_False by done. done.
Qed.

Lemma occurrences_elem_of t l : 0 < occurrences t l <-> t ∈ l.
Proof.
  induction l as [|a l IH]; [cbn; rewrite elem_of_nil; lia|].
  rewrite occurrences_cons, elem_of_cons. case_decide; [|tauto].
  split; [by left|lia].
Qed.

Lemma occurrences_NoDup t l :
  NoDup l -> occurrences t l = if decide (t ∈ l) then 1 else 0.
Proof.
  induction 1 as [|a l Ha Hl IH]; [done|].
  rewrite occurrences_cons, IH.
  destruct (decide (t = a)) as [->|Hne].
  - rewrite decide_False by done. rewrite decide_True; [done|by left].
  - destruct (decide (t ∈ l)).
    + rewrite decide_True; [done|by right].
    + rewrite decide_False; [done|]. rewrite elem_of_cons. tauto.
Qed.

Lemma elem_of_set_of t l : t ∈ set_of l <-> t ∈ l.
Proof. unfold set_of. by rewrite elem_of_elements, elem_of_list_to_set. Qed.

Lemma NoDup_set_of l : NoDup (set_of l).
Proof. unfold set_of. apply NoDup_elements. Qed.

(** One pass of the inner loop of [calculate_idf]. *)
Lemma count_chunk_lookup m l t :
  foldl incr m (set_of l) !! t
  = if decide (t ∈ l) then Some (S (default 0 (m !! t))) else m !! t.
Proof.
  rewrite foldl_incr_lookup, occurrences_NoDup by apply NoDup_set_of.
  destruct (decide (t ∈ l)) as [Hin|Hnin].
  - rewrite decide_True by (by apply elem_of_set_of). f_equal. lia.
  - rewrite decide_False; [done|]. by rewrite elem_of_set_of.
Qed.

Lemma document_frequency_cons t l all :
  document_frequency t (l :: all)
  = if decide (t ∈ l) then S (document_frequency t all)
    else document_frequency t all.
Proof. unfold document_frequency. rewrite filter_cons. by case_decide. Qed.

Lemma fold_count_lookup all m t :
  foldl (fun counts l => foldl incr counts (set_of l)) m all !! t
  = match document_frequency t all with
    | O => m !! t
    | S k => Some (default 0 (m !! t) + S k)
    end.
Proof.
  revert m. induction all as [|l all IH]; intros m; [done|].
  cbn [foldl]. rewrite IH, count_chunk_lookup, document_frequency_cons.
  destruct (decide (t ∈ l)).
  - destruct (document_frequency t all); cbn; f_equal; lia.
  - done.
Qed.

(** The table built by [calculate_idf] holds, for every token that
    occurs, the number of chunks it occurs in. *)
Lemma term_chunk_count_lookup all t :
  term_chunk_count all !! t
  = match document_frequency t all with O => None | S k => Some (S k) end.
Proof.
  unfold term_chunk_count. rewrite fold_count_lookup, lookup_empty.
  by destruct (document_frequency t all).
Qed.

Lemma Counter_lookup tokens t :
  Counter tokens !! t
  = match occurrences t tokens with O => None | S k => Some (S k) end.
Proof.
  unfold Counter. rewrite foldl_incr_lookup, lookup_empty.
  by destruct (occurrences t tokens).
Qed.

Lemma document_frequency_le t all : document_frequency t all <= length all.
Proof. apply length_filter. Qed.

Lemma document_frequency_pos t all :
  0 < document_frequency t all <-> exists l, l ∈ all /\ t ∈ l.
Proof.
  induction all as [|l all IH].
  - cbn. split; [lia|]. intros (l & Hl & _). by apply elem_of_nil in Hl.
  - rewrite document_frequency_cons. case_decide as Hin.
    + split; [|lia]. intros _. exists l. split; [by left|done].
    + rewrite IH. split.
      * intros (l' & ? & ?). exists l'. split; [by right|done].
      * intros (l' & [->|?]%elem_of_cons & ?); [done|]. by exists l'.
Qed.

Lemma document_frequency_all t all :
  document_frequency t all = length all <-> forall l, l ∈ all -> t ∈ l.
Proof.
  induction all as [|l all IH].
  - split; [|done]. intros _ l Hl. by apply elem_of_nil in Hl.
  - rewrite document_frequency_cons. cbn [length].
    pose proof (document_frequency_le t all).
    case_decide as Hin.
    + split.
      * intros Heq l' [->|Hl']%elem_of_cons; [done|]. apply IH; [lia|done].
      * intros Hall. f_equal. apply IH. intros l' Hl'. apply Hall. by right.
    + split; [lia|]. intros Hall. destruct Hin. apply Hall. by left.
Qed.
End Counting.

(** ** Weights *)

Section Weights.
Local Open Scope R_scope.
Implicit Types (t : string) (tokens : list string) (all : list (list string))
  (idf tf v : gmap string R).

Lemma ratio_ge_1 (n k : nat) : (1 <= k <= n)%nat -> 1 <= INR n / INR k.
Proof.
  intros [Hk Hn]. assert (0 < INR k) by (apply lt_0_INR; lia).
  apply le_INR in Hn.
  apply (Rmult_le_reg_r (INR k)); [done|].
  replace (INR n / INR k * INR k) with (INR n) by (field; lra). lra.
Qed.

Lemma ln_ratio_nonneg (n k : nat) : (1 <= k <= n)%nat -> 0 <= ln (INR n / INR k).
Proof.
  intros H. destruct (ratio_ge_1 n k H) as [Hlt|<-]; [|rewrite ln_1; lra].
  rewrite <- ln_1. left. apply ln_increasing; lra.
Qed.

Lemma ln_ratio_zero (n k : nat) :
  (1 <= k <= n)%nat -> ln (INR n / INR k) = 0 <-> k = n.
Proof.
  intros H. pose proof (ratio_ge_1 n k H).
  assert (0 < INR k) by (apply lt_0_INR; lia).
  split.
  - rewrite <- ln_1. intros Heq%ln_inv; [|lra|lra].
    apply Rdiv_diag_uniq in Heq. symmetry. by apply INR_eq.
  - intros ->. rewrite Rdiv_diag by lra. apply ln_1.
Qed.

Lemma calculate_idf_lookup all t :
  calculate_idf all !! t
  = match document_frequency t all with
    | O => None
    | S k => Some (ln (INR (length all) / INR (S k)))
    end.
Proof.
  unfold calculate_idf. case_decide as Hlen.
  - apply length_zero_iff_nil in Hlen as ->. by rewrite lookup_empty.
  - rewrite lookup_fmap, term_chunk_count_lookup.
    by destruct (document_frequency t all).
Qed.

Lemma calculate_tf_lookup tokens t :
  calculate_tf tokens !! t
  = match occurrences t tokens with
    | O => None
    | S k => Some (INR (S k) / INR (length tokens))
    end.
Proof.
  unfold calculate_tf. case_decide as Hlen.
  - apply length_zero_iff_nil in Hlen as ->. by rewrite lookup_empty.
  - rewrite lookup_fmap, Counter_lookup. by destruct (occurrences t tokens).
Qed.

Lemma tf_pos (k : nat) tokens : tokens <> [] -> 0 < INR (S k) / INR (length tokens).
Proof.
  intros Hne. apply Rdiv_lt_0_compat; apply lt_0_INR; [lia|].
  destruct tokens; [done|cbn; lia].
Qed.

Lemma weigh_lookup idf tf t :
  weigh idf tf !! t = tf !! t ≫= fun x => (fun i => x * i) <$> idf !! t.
Proof. unfold weigh. apply map_lookup_imap. Qed.

(** Keys of a weighted vector are tokens of the text it was built from. *)
Lemma weigh_tf_key idf tokens t :
  is_Some (weigh idf (calculate_tf tokens) !! t) -> t ∈ tokens.
Proof.
  rewrite weigh_lookup, calculate_tf_lookup. intros [w Hw].
  apply occurrences_elem_of. destruct (occurrences t tokens); [done|lia].
Qed.

(** The entry of a chunk's vector, for a chunk of the corpus. *)
Lemma chunk_vector_lookup all tokens t :
  tokens ∈ all ->
  weigh (calculate_idf all) (calculate_tf tokens) !! t
  = match occurrences t tokens with
    | O => None
    | S k => Some (INR (S k) / INR (length tokens)
                   * ln (INR (length all) / INR (document_frequency t all)))
    end.
Proof.
  intros Hin. rewrite weigh_lookup, calculate_tf_lookup.
  destruct (occurrences t tokens) as [|k] eqn:Hocc; [done|].
  cbn. rewrite calculate_idf_lookup.
  assert (0 < document_frequency t all)%nat as Hdf.
  { apply document_frequency_pos. exists tokens. split; [done|].
    apply occurrences_elem_of. lia. }
  by destruct (document_frequency t all); [lia|].
Qed.

Lemma matrix_lookup (self : processor) (chunks : list string) (i : nat) :
  (calculate_tfidf_matrix self chunks).2.1 !! i
  = (fun chunk => weigh (calculate_idf (tokenize <$> chunks))
                    (calculate_tf (tokenize chunk))) <$> chunks !! i.
Proof.
  unfold calculate_tfidf_matrix. cbn. rewrite !list_lookup_fmap.
  by destruct (chunks !! i).
Qed.

Lemma elem_of_tokenized (chunks : list string) (i : nat) (chunk : string) :
  chunks !! i = Some chunk -> tokenize chunk ∈ tokenize <$> chunks.
Proof. intros H. apply list_elem_of_fmap_2. by eapply list_elem_of_lookup_2. Qed.

Lemma forall_tokenized (chunks : list string) t :
  (forall l, l ∈ tokenize <$> chunks -> t ∈ l)
  <-> (forall c, c ∈ chunks -> t ∈ tokenize c).
Proof.
  split.
  - intros H c Hc. apply H. by apply list_elem_of_fmap_2.
  - intros H l (c & -> & Hc)%list_elem_of_fmap. by apply H.
Qed.

(** What an entry of a chunk vector is: present exactly for the tokens of
    the chunk, never negative, and zero exactly for a token that occurs in
    every chunk of the corpus. *)
Lemma chunk_vector_entry (chunks : list string) (i : nat) (chunk : string) v t :
  chunks !! i = Some chunk ->
  v = weigh (calculate_idf (tokenize <$> chunks)) (calculate_tf (tokenize chunk)) ->
  (is_Some (v !! t) <-> t ∈ tokenize chunk) /\
  (forall w, v !! t = Some w ->
     0 <= w /\ (w = 0 <-> forall c, c ∈ chunks -> t ∈ tokenize c)).
Proof.
  intros Hi ->. pose proof (elem_of_tokenized _ _ _ Hi) as Hin.
  rewrite (chunk_vector_lookup _ _ t Hin).
  pose proof (occurrences_elem_of t (tokenize chunk)) as Hocc.
  destruct (occurrences t (tokenize chunk)) as [|k] eqn:E.
  { split; [|done]. split; [by intros [? ?]|]. intros ?%Hocc. lia. }
  assert (t ∈ tokenize chunk) as Ht by (apply Hocc; lia).
  assert (tokenize chunk <> []) as Hne by (intros Hnil; rewrite Hnil in Ht; by apply elem_of_nil in Ht).
  split; [split; [done|by eexists]|].
  intros w [= <-].
  remember (tokenize <$> chunks) as all eqn:Hall.
  rewrite <- forall_tokenized, <- Hall.
  assert (1 <= document_frequency t all <= length all)%nat as Hdf.
  { split; [|apply document_frequency_le].
    apply document_frequency_pos. by exists (tokenize chunk). }
  pose proof (tf_pos k _ Hne) as Htf.
  pose proof (ln_ratio_nonneg _ _ Hdf) as Hln.
  split; [apply Rmult_le_pos; [left; exact Htf|exact Hln]|].
  rewrite <- document_frequency_all, <- (ln_ratio_zero _ _ Hdf).
  split; [|intros ->; apply Rmult_0_r].
  intros [H0|?]%Rmult_integral; [|done].
  destruct (Rgt_not_eq _ _ Htf H0).
Qed.

(** What an entry of a vector weighted with the IDF table of a corpus is,
    for the tokens of any text, a query included. *)
Lemma weighted_vector_entry (chunks : list string) tokens v t :
  v = weigh (calculate_idf (tokenize <$> chunks)) (calculate_tf tokens) ->
  (is_Some (v !! t) <-> t ∈ tokens /\ exists c, c ∈ chunks /\ t ∈ tokenize c) /\
  (forall w, v !! t = Some w ->
     0 <= w /\ (w = 0 <-> forall c, c ∈ chunks -> t ∈ tokenize c)).
Proof.
  intros ->. rewrite weigh_lookup, calculate_tf_lookup, calculate_idf_lookup.
  remember (tokenize <$> chunks) as all eqn:Hall.
  assert ((exists c, c ∈ chunks /\ t ∈ tokenize c)
          <-> exists l, l ∈ all /\ t ∈ l) as Hcorpus.
  { subst all. split.
    - intros (c & Hc & Ht). exists (tokenize c). split; [|done].
      by apply list_elem_of_fmap_2.
    - intros (l & (c & -> & Hc)%list_elem_of_fmap & Ht). by exists c. }
  pose proof (document_frequency_pos t all) as Hpos.
  pose proof (occurrences_elem_of t tokens) as Hocc.
  pose proof (document_frequency_le t all) as Hle.
  destruct (occurrences t tokens) as [|k].
  { split; [|done]. split; [by intros [? ?]|]. intros [?%Hocc _]. lia. }
  assert (t ∈ tokens) as Ht by (apply Hocc; lia).
  assert (tokens <> []) as Hne by (intros ->; by apply elem_of_nil in Ht).
  cbn [mbind option_bind].
  destruct (document_frequency t all) as [|j] eqn:Hdf.
  { split; [|done]. split; [by intros [? ?]|].
    intros [_ ?%Hcorpus%Hpos]. lia. }
  split.
  { split; [|by eexists]. intros _. split; [done|]. apply Hcorpus, Hpos. lia. }
  intros w Hw.
  change (Some (INR (S k) / INR (length tokens)
                * ln (INR (length all) / INR (S j))) = Some w) in Hw.
  assert (w = INR (S k) / INR (length tokens)
              * ln (INR (length all) / INR (S j))) as -> by congruence.
  assert (1 <= S j <= length all)%nat as Hj by lia.
  pose proof (tf_pos k _ Hne) as Htf.
  pose proof (ln_ratio_nonneg _ _ Hj) as Hln.
  split; [apply Rmult_le_pos; [left; exact Htf|exact Hln]|].
  rewrite <- forall_tokenized, <- Hall.
  rewrite <- document_frequency_all, Hdf, <- (ln_ratio_zero _ _ Hj).
  split; [|intros ->; apply Rmult_0_r].
  intros [H0|?]%Rmult_integral; [|done].
  destruct (Rgt_not_eq _ _ Htf H0).
Qed.
End Weights.

(** ** IDF *)

(** C8: every weight of the IDF table is the logarithm of the chunk count
    over the number of chunks that hold the token; it is never negative and
    it is zero exactly when the token occurs in every chunk. *)
Theorem calculate_idf_weight (all_chunks_tokens : list (list string))
    (t : string) (w : R) :
  all_chunks_tokens <> [] ->
  calculate_idf all_chunks_tokens !! t = Some w ->
  (1 <= document_frequency t all_chunks_tokens)%nat /\
  w = ln (INR (length all_chunks_tokens)
          / INR (document_frequency t all_chunks_tokens)) /\
  (0 <= w)%R /\
  (w = 0%R <-> forall chunk_tokens,
                 chunk_tokens ∈ all_chunks_tokens -> t ∈ chunk_tokens).
Proof.
  intros _. rewrite calculate_idf_lookup.
  destruct (document_frequency t all_chunks_tokens) as [|k] eqn:E; [done|].
  intros Hw.
  assert (w = ln (INR (length all_chunks_tokens) / INR (S k))) as -> by congruence.
  clear Hw.
  assert (1 <= S k <= length all_chunks_tokens)%nat as Hdf
    by (rewrite <- E; split; [lia|apply document_frequency_le]).
  split; [lia|]. split; [done|]. split; [by apply ln_ratio_nonneg|].
  rewrite <- document_frequency_all, E. by apply ln_ratio_zero.
Qed.

Lemma calculate_idf_weight_witness :
  (1 <= document_frequency "subiu" idf_example)%nat /\
  ln (INR 2 / INR 1)
  = ln (INR (length idf_example) / INR (document_frequency "subiu" idf_example)) /\
  (0 <= ln (INR 2 / INR 1))%R /\
  (ln (INR 2 / INR 1) = 0%R
   <-> forall chunk_tokens, chunk_tokens ∈ idf_example -> "subiu" ∈ chunk_tokens).
Proof.
  apply (calculate_idf_weight idf_example "subiu" (ln (INR 2 / INR 1))).
  - discriminate.
  - reflexivity.
Defined.

(** ** TF-IDF vectors *)

Example tokenize_gato : tokenize gato_text = ["gato"; "subiu"; "telhado"].
Proof. vm_compute. reflexivity. Qed.

Lemma gato_matrix (self : processor) :
  (calculate_tfidf_matrix self [gato_text]).2.1 = [gato_vector].
Proof. reflexivity. Qed.

(** In a corpus of one chunk every token occurs in every chunk, so every
    weight is [tf * ln 1 = 0]. *)
Lemma gato_vector_lookup (t : string) (w : R) :
  gato_vector !! t = Some w -> w = 0%R.
Proof.
  intros Hw.
  destruct (chunk_vector_entry [gato_text] 0 gato_text gato_vector t) as [Hkey Hval];
    [done|done|].
  destruct (Hval w Hw) as [_ Hzero]. apply Hzero.
  intros c ->%list_elem_of_singleton. apply Hkey. by eexists.
Qed.

Lemma gato_vector_key : is_Some (gato_vector !! "gato").
Proof.
  apply (chunk_vector_entry [gato_text] 0 gato_text gato_vector "gato"); [done|done|].
  rewrite tokenize_gato. by left.
Qed.

(** C3 fails on the code: the vector of the one-chunk corpus [[gato_text]]
    keeps the token "gato" with the weight 0. *)
Lemma tfidf_vector_zero_entry :
  tfidf_matrix gato_processor = [gato_vector] /\
  (calculate_tfidf_matrix empty_processor [gato_text]).2.1 !! 0%nat
  = Some gato_vector /\
  gato_vector !! "gato" = Some 0%R.
Proof.
  split; [reflexivity|]. split; [reflexivity|].
  destruct gato_vector_key as [w Hw]. by rewrite Hw, (gato_vector_lookup _ _ Hw).
Qed.

(** C3, as the code has it: the keys of a chunk's vector are exactly the
    tokens of the chunk, the keys of a query vector are the tokens of the
    query that occur in the corpus, and in neither is an entry left out for
    being zero: a weight is never negative, and it is zero exactly when the
    token occurs in every chunk of the corpus. *)
Theorem tfidf_vector_entries (self : processor) (chunks : list string)
    (i : nat) (chunk : string) (v : gmap string R) :
  chunks !! i = Some chunk ->
  (calculate_tfidf_matrix self chunks).2.1 !! i = Some v ->
  (forall t, is_Some (v !! t) <-> t ∈ tokenize chunk) /\
  (forall t w, v !! t = Some w ->
     (0 <= w)%R /\ (w = 0%R <-> forall c, c ∈ chunks -> t ∈ tokenize c)) /\
  (forall query,
     let q := query_tfidf (calculate_tfidf_matrix self chunks).1 query in
     (forall t, is_Some (q !! t) <->
        t ∈ tokenize query /\ exists c, c ∈ chunks /\ t ∈ tokenize c) /\
     (forall t w, q !! t = Some w ->
        (0 <= w)%R /\ (w = 0%R <-> forall c, c ∈ chunks -> t ∈ tokenize c))).
Proof.
  intros Hi Hv. rewrite matrix_lookup, Hi in Hv. injection Hv as Hv.
  split; [|split].
  - intros t. by apply (chunk_vector_entry chunks i chunk v t).
  - intros t. by apply (chunk_vector_entry chunks i chunk v t).
  - intros query. cbv zeta.
    split; intros t; by apply (weighted_vector_entry chunks (tokenize query)).
Qed.

Lemma tfidf_vector_entries_witness :
  let v := weigh (calculate_idf (tokenize <$> two_chunks))
             (calculate_tf (tokenize gato_text)) in
  let q := query_tfidf (calculate_tfidf_matrix empty_processor two_chunks).1
             "gato preto" in
  two_chunks !! 0%nat = Some gato_text /\
  (calculate_tfidf_matrix empty_processor two_chunks).2.1 !! 0%nat = Some v /\
  (forall t, is_Some (v !! t) <-> t ∈ tokenize gato_text) /\
  (forall t w, v !! t = Some w ->
     (0 <= w)%R /\ (w = 0%R <-> forall c, c ∈ two_chunks -> t ∈ tokenize c)) /\
  (forall t, is_Some (q !! t) <->
     t ∈ tokenize "gato preto" /\ exists c, c ∈ two_chunks /\ t ∈ tokenize c) /\
  (forall t w, q !! t = Some w ->
     (0 <= w)%R /\ (w = 0%R <-> forall c, c ∈ two_chunks -> t ∈ tokenize c)).
Proof.
  cbv zeta.
  assert ((calculate_tfidf_matrix empty_processor two_chunks).2.1 !! 0%nat
          = Some (weigh (calculate_idf (tokenize <$> two_chunks))
                    (calculate_tf (tokenize gato_text)))) as Hrow
    by (rewrite matrix_lookup; reflexivity).
  assert (two_chunks !! 0%nat = Some gato_text) as Hchunk by reflexivity.
  split; [exact Hchunk|]. split; [exact Hrow|].
  destruct (tfidf_vector_entries empty_processor two_chunks 0 gato_text
              (weigh (calculate_idf (tokenize <$> two_chunks))
                 (calculate_tf (tokenize gato_text))) Hchunk Hrow)
    as (Hkeys & Hweights & Hquery).
  split; [exact Hkeys|]. split; [exact Hweights|]. exact (Hquery "gato preto").
Defined.

(** ** Sums *)

Section Sums.
Local Open Scope R_scope.
Implicit Types (l : list R) (v : gmap string R).

Lemma foldl_Rplus (a : R) l : foldl Rplus a l = a + foldr Rplus 0 l.
Proof.
  revert a. induction l as [|x l IH]; intros a; cbn; [lra|]. rewrite IH. lra.
Qed.

Lemma sum_cons (x : R) l : sum (x :: l) = x + sum l.
Proof. unfold sum. cbn. rewrite !foldl_Rplus. lra. Qed.

Lemma sum_perm l l' : l ≡ₚ l' -> sum l = sum l'.
Proof.
  induction 1 as [|x l l' _ IH|x y l|l1 l2 l3 _ IH1 _ IH2];
    rewrite ?sum_cons; [done|by rewrite IH|lra|by rewrite IH1].
Qed.

Lemma sum_nonneg l : Forall (fun x => 0 <= x) l -> 0 <= sum l.
Proof.
  induction 1 as [|x l Hx _ IH]; [unfold sum; cbn; lra|].
  rewrite sum_cons. lra.
Qed.

Lemma sum_ge_elem l (x : R) : Forall (fun x => 0 <= x) l -> x ∈ l -> x <= sum l.
Proof.
  induction 1 as [|y l Hy Hl IH]; [by intros ?%elem_of_nil|].
  pose proof (sum_nonneg l Hl). rewrite sum_cons.
  intros [->|Hin]%elem_of_cons; [lra|]. specialize (IH Hin). lra.
Qed.

Lemma sum_zero l : Forall (fun x => x = 0) l -> sum l = 0.
Proof.
  induction 1 as [|x l -> _ IH]; [done|]. rewrite sum_cons, IH. lra.
Qed.

Lemma squares_nonneg v : Forall (fun x => 0 <= x) (squares v).
Proof.
  unfold squares. apply Forall_fmap, Forall_forall. intros x _. cbn.
  apply pow2_ge_0.
Qed.

Lemma elem_of_values v (x : R) : x ∈ values v <-> exists t, v !! t = Some x.
Proof.
  unfold values. rewrite list_elem_of_fmap. split.
  - intros ([t y] & -> & Hin). exists t. by apply elem_of_map_to_list.
  - intros (t & Ht). exists (t, x). split; [done|]. by apply elem_of_map_to_list.
Qed.

Lemma norm_sqrt v : norm v = sqrt (sum (squares v)).
Proof. reflexivity. Qed.

Lemma norm_all_zero v : (forall t w, v !! t = Some w -> w = 0) -> norm v = 0.
Proof.
  intros Hall. rewrite norm_sqrt, sum_zero; [apply sqrt_0|].
  unfold squares. apply Forall_fmap, Forall_forall.
  intros x (t & Ht)%elem_of_values. rewrite (Hall t x Ht). cbn. lra.
Qed.

Lemma norm_nonzero v t (w : R) : v !! t = Some w -> w <> 0 -> norm v <> 0.
Proof.
  intros Ht Hw. rewrite norm_sqrt.
  assert (0 < w ^ 2)
    by (cbn; destruct (Rtotal_order w 0) as [?|[?|?]]; [nra|done|nra]).
  assert (w ^ 2 <= sum (squares v)).
  { apply sum_ge_elem; [apply squares_nonneg|].
    unfold squares. apply (list_elem_of_fmap_2 (fun s => s ^ 2)).
    apply elem_of_values. by exists t. }
  apply Rgt_not_eq, sqrt_lt_R0. lra.
Qed.

End Sums.

(** ** Cosine similarity *)

Section Cosine.
Local Open Scope R_scope.
Implicit Types (v : gmap string R).

Lemma cosine_similarity_zero_norm (vec1 vec2 : gmap string R) :
  norm vec1 = 0 \/ norm vec2 = 0 -> cosine_similarity vec1 vec2 = 0.
Proof.
  intros H. unfold cosine_similarity. case_decide; [done|].
  by rewrite decide_True.
Qed.

(** In exact arithmetic the two orders of the arguments give the same
    number.  (The code adds the shared terms in the order in which a set
    yields them, so its two results may differ in the last bit.) *)
Lemma cosine_similarity_comm (vec1 vec2 : gmap string R) :
  cosine_similarity vec1 vec2 = cosine_similarity vec2 vec1.
Proof.
  unfold cosine_similarity.
  rewrite (comm_L (∩) (dom vec2) (dom vec1)).
  case_decide; [done|].
  replace ((fun term => item vec2 term * item vec1 term)
             <$> elements (dom vec1 ∩ dom vec2))
    with ((fun term => item vec1 term * item vec2 term)
             <$> elements (dom vec1 ∩ dom vec2))
    by (apply list_fmap_ext; intros; apply Rmult_comm).
  destruct (decide (norm vec1 = 0 \/ norm vec2 = 0)) as [H1|H1];
    destruct (decide (norm vec2 = 0 \/ norm vec1 = 0)) as [H2|H2];
    [done|tauto|tauto|].
  by rewrite (Rmult_comm (norm vec2)).
Qed.

(** A chunk whose tokens all occur in every chunk of the corpus has the
    zero vector. *)
Lemma chunk_vector_zero (chunks : list string) (i : nat) (chunk : string) v :
  chunks !! i = Some chunk ->
  v = weigh (calculate_idf (tokenize <$> chunks)) (calculate_tf (tokenize chunk)) ->
  (forall t c, t ∈ tokenize chunk -> c ∈ chunks -> t ∈ tokenize c) ->
  norm v = 0.
Proof.
  intros Hi Hv Hall. apply norm_all_zero. intros t w Hw.
  destruct (chunk_vector_entry chunks i chunk v t Hi Hv) as [Hkey Hval].
  apply (proj2 (Hval w Hw)). intros c Hc. apply Hall; [|done].
  apply Hkey. by eexists.
Qed.
End Cosine.

(** C4 fails on the code: the only chunk of the corpus [[gato_text]] has
    three indexed tokens, and the similarity of its vector with itself
    is 0. *)
Lemma cosine_similarity_self_zero :
  chunks gato_processor = [gato_text] /\
  tfidf_matrix gato_processor = [gato_vector] /\
  tokenize gato_text <> [] /\
  cosine_similarity gato_vector gato_vector = 0%R /\
  cosine_similarity gato_vector gato_vector <> 1%R.
Proof.
  assert (cosine_similarity gato_vector gato_vector = 0%R) as H0.
  { apply cosine_similarity_zero_norm. left.
    apply norm_all_zero, gato_vector_lookup. }
  split; [reflexivity|]. split; [reflexivity|]. split; [by rewrite tokenize_gato|].
  split; [done|]. rewrite H0. lra.
Qed.

Example tokenize_cachorro :
  tokenize cachorro_text = ["cachorro"; "correu"; "parque"].
Proof. vm_compute. reflexivity. Qed.

(** ** search_similar_chunks *)

Section Ranking.
Local Open Scope R_scope.
Implicit Types (h : hit) (l : list hit).

Lemma insert_desc_Forall (P : hit -> Prop) h l :
  P h -> Forall P l -> Forall P (insert_desc h l).
Proof.
  intros Hh. induction 1 as [|h' l Hh' Hl IH]; cbn; [by repeat constructor|].
  case_decide; by repeat constructor.
Qed.

Lemma sort_desc_Forall (P : hit -> Prop) l : Forall P l -> Forall P (sort_desc l).
Proof.
  induction 1 as [|h l Hh Hl IH]; [constructor|].
  cbn. by apply insert_desc_Forall.
Qed.

Lemma insert_desc_sorted h l : descending l -> descending (insert_desc h l).
Proof.
  unfold descending. induction 1 as [|h' l Hl IH Hall]; cbn.
  - by repeat constructor.
  - case_decide as Hlt.
    + constructor; [done|]. apply insert_desc_Forall; [lra|done].
    + constructor; [by constructor|]. constructor; [lra|].
      eapply Forall_impl; [exact Hall|]. cbn. intros b Hb. lra.
Qed.

Lemma sort_desc_sorted l : descending (sort_desc l).
Proof.
  induction l as [|h l IH]; [constructor|]. cbn. by apply insert_desc_sorted.
Qed.

Lemma descending_take (n : nat) l : descending l -> descending (take n l).
Proof.
  unfold descending. intros H. revert n.
  induction H as [|h l Hl IH Hall]; intros [|n]; cbn; try constructor.
  - apply IH.
  - by apply Forall_take.
Qed.

Lemma collect_Forall (P : hit -> Prop) (chunks : list string)
    (query_tfidf : gmap string R) (rows : list (gmap string R)) :
  (forall h, 0 < similarity h -> P h) ->
  forall (i : nat) (acc result : list hit),
    Forall P acc ->
    collect chunks query_tfidf i rows acc = Some result -> Forall P result.
Proof.
  intros HP. induction rows as [|row rows IH]; intros i acc result Hacc;
    cbn [collect]; [by intros [= <-]|].
  case_decide as Hpos; [|by apply IH].
  destruct (chunks !! i) as [c|]; [|done]. apply IH.
  apply Forall_app. split; [done|]. repeat constructor. by apply HP.
Qed.

Lemma slice_to_take {A} (l : list A) (k : Z) :
  slice_to l k = take (Z.to_nat (clip_index (len l) k)) l.
Proof.
  unfold slice_to, slice, len. cbn [clip_index Z.ltb Z.compare].
  rewrite Z.min_l by lia. cbn. f_equal. lia.
Qed.
End Ranking.

(** C7: every result has a similarity above 0, the results are in
    descending order of similarity, and there are at most [top_k] of them,
    [top_k] being a count. *)
Theorem search_similar_chunks_ranked (self : processor) (query : string)
    (top_k : Z) :
  let result := search_similar_chunks self query top_k in
  Forall (fun h => (0 < similarity h)%R) result /\
  descending result /\
  ((0 <= top_k)%Z -> (len result <= top_k)%Z).
Proof.
  cbv zeta. unfold search_similar_chunks.
  assert (Forall (fun h => (0 < similarity h)%R) [] /\ descending [] /\
          ((0 <= top_k)%Z -> (len (@nil hit) <= top_k)%Z)) as Hnil
    by (split; [constructor|split; [constructor|done]]).
  destruct (_ || _); [done|].
  destruct (bool_decide _); [done|]. destruct (bool_decide _); [done|].
  destruct (collect _ _ _ _ _) as [similarities|] eqn:Hcollect; [|done].
  rewrite slice_to_take. split; [|split].
  - apply Forall_take, sort_desc_Forall.
    eapply collect_Forall; [|constructor|exact Hcollect]. done.
  - apply descending_take, sort_desc_sorted.
  - intros Hk. unfold len. rewrite length_take.
    unfold clip_index. destruct (Z.ltb_spec top_k 0); lia.
Qed.

(** * Further properties *)

(** ** process_document *)

Section ProcessDocument.
Implicit Types (self : processor) (up : upload).

Lemma supported_extension_test up :
  negb (bool_decide (up_extension up = ".pdf")
        || bool_decide (up_extension up = ".csv")) = false
  <-> supported_extension (up_extension up).
Proof.
  unfold supported_extension. rewrite negb_false_iff, orb_true_iff.
  by rewrite !bool_decide_eq_true.
Qed.

(** What a successful call leaves in the processor. *)
Lemma process_document_success_inv (fuel : nat) self self' up
    (name : string) (n v s : Z) :
  process_document fuel self up = Returns (self', Processed name n v s) ->
  let c := clean_text (up_raw_text up) in
  supported_extension (up_extension up) /\
  Text.strip (up_raw_text up) <> EmptyString /\
  (len (Text.split c) <= default_chunk_size)%Z /\
  chunks self' = [c] /\
  tfidf_matrix self'
  = [weigh (calculate_idf [tokenize c]) (calculate_tf (tokenize c))] /\
  idf_scores self' = calculate_idf [tokenize c] /\
  vocabulary self' = build_vocabulary [tokenize c] /\
  documents self' = <[up_filename up := upload_info up 1]> (documents self) /\
  document_stats self'
  = {| total_documents := 1; total_chunks := 1;
       total_words := len (Text.split c);
       vocabulary_size := Z.of_nat (size (build_vocabulary [tokenize c]));
       last_processed := Some (up_now_stats up) |} /\
  name = up_filename up /\ n = 1%Z /\
  v = Z.of_nat (size (build_vocabulary [tokenize c])) /\ s = up_file_size up.
Proof.
  unfold process_document.
  destruct (negb _) eqn:Hext; [done|]. apply supported_extension_test in Hext.
  destruct (Text.is_empty _) eqn:Hblank; [done|].
  unfold split_into_chunks.
  destruct (Z.leb_spec (len (Text.split (clean_text (up_raw_text up))))
              default_chunk_size) as [Hle|Hgt].
  - cbn. intros [= <- <- <- <- <-]. repeat split; try done.
    intros Hs. by rewrite Hs in Hblank.
  - rewrite chunk_loop_pending; [done|done|].
    unfold default_chunk_size in Hgt. lia.
Qed.

(** In a corpus of one chunk every IDF weight is [ln (1 / 1) = 0]. *)
Lemma single_chunk_idf (tokens : list string) (t : string) (w : R) :
  calculate_idf [tokens] !! t = Some w -> w = 0%R.
Proof.
  rewrite calculate_idf_lookup.
  pose proof (document_frequency_le t [tokens]) as Hle. cbn [length] in Hle.
  destruct (document_frequency t [tokens]) as [|k]; [done|].
  assert (k = 0%nat) as -> by lia. intros [= <-].
  cbn [length]. rewrite Rdiv_diag; [apply ln_1|]. cbn. lra.
Qed.

Lemma single_chunk_weigh (tokens tf_tokens : list string) (t : string) (w : R) :
  weigh (calculate_idf [tokens]) (calculate_tf tf_tokens) !! t = Some w -> w = 0%R.
Proof.
  rewrite weigh_lookup.
  destruct (calculate_tf tf_tokens !! t) as [x|]; [|done]. cbn.
  destruct (calculate_idf [tokens] !! t) as [i|] eqn:Hi; [|done].
  intros [= <-]. rewrite (single_chunk_idf _ _ _ Hi). apply Rmult_0_r.
Qed.
End ProcessDocument.

(** X1: for an upload that, when its extension is supported, has a cleaned
    text of at most 500 words (the chunking loop is then not entered), a
    failed call leaves the processor as it was, and the failure is either
    the unsupported extension or the blank text: the chunker never hands
    back an empty list. *)
Theorem process_document_failure (fuel : nat) (self self' : processor)
    (up : upload) (e : process_error) (name : string) :
  (supported_extension (up_extension up) ->
   (len (Text.split (clean_text (up_raw_text up))) <= default_chunk_size)%Z) ->
  process_document fuel self up = Returns (self', Failed e name) ->
  self' = self /\ name = up_filename up /\
  (e = UnsupportedFileType /\ ~ supported_extension (up_extension up) \/
   e = NoTextExtracted /\ supported_extension (up_extension up) /\
   Text.strip (up_raw_text up) = EmptyString).
Proof.
  intros Hshort. unfold process_document.
  destruct (negb _) eqn:Hext.
  { intros [= <- <- <-]. split; [done|]. split; [done|]. left. split; [done|].
    intros Hs%supported_extension_test. congruence. }
  apply supported_extension_test in Hext.
  destruct (Text.is_empty _) eqn:Hblank.
  { intros [= <- <- <-]. split; [done|]. split; [done|]. right.
    split; [done|]. split; [done|].
    by destruct (Text.strip (up_raw_text up)). }
  rewrite split_into_chunks_at_most by (by apply Hshort). done.
Qed.

Lemma process_document_failure_witness :
  (supported_extension (up_extension blank_upload) ->
   (len (Text.split (clean_text (up_raw_text blank_upload)))
    <= default_chunk_size)%Z) /\
  process_document 0 gato_processor blank_upload
  = Returns (gato_processor, Failed NoTextExtracted "vazio.csv") /\
  supported_extension (up_extension blank_upload) /\
  Text.strip (up_raw_text blank_upload) = EmptyString.
Proof.
  assert (supported_extension (up_extension blank_upload) ->
          (len (Text.split (clean_text (up_raw_text blank_upload)))
           <= default_chunk_size)%Z) as Hshort
    by (intros _; vm_compute; discriminate).
  assert (process_document 0 gato_processor blank_upload
          = Returns (gato_processor, Failed NoTextExtracted "vazio.csv")) as Hcall
    by reflexivity.
  split; [exact Hshort|]. split; [exact Hcall|].
  destruct (process_document_failure 0 gato_processor gato_processor blank_upload
              NoTextExtracted "vazio.csv" Hshort Hcall) as (_ & _ & [[He _]|H]).
  - discriminate He.
  - exact (proj2 H).
Defined.

(** X2: a successful call stores the cleaned text as the only chunk, with
    one TF-IDF vector beside it; the statistics count one document, one
    chunk and the size of the vocabulary; the document is registered under
    its file name and the documents registered before are kept;
    [get_statistics] then reports an active processor with one chunk and one
    vector. *)
Theorem process_document_success (fuel : nat) (self self' : processor)
    (up : upload) (name : string) (n v s : Z) :
  process_document fuel self up = Returns (self', Processed name n v s) ->
  chunks self' = [clean_text (up_raw_text up)] /\
  length (tfidf_matrix self') = length (chunks self') /\
  (total_documents (document_stats self') = 1 /\
   total_chunks (document_stats self') = len (chunks self') /\
   vocabulary_size (document_stats self')
   = Z.of_nat (size (vocabulary self')))%Z /\
  documents self' !! up_filename up = Some (upload_info up 1) /\
  (forall other, other <> up_filename up ->
     documents self' !! other = documents self !! other) /\
  (stat_chunks_loaded (get_statistics self') = 1 /\
   stat_tfidf_matrix_size (get_statistics self') = 1 /\
   stat_vocabulary_size (get_statistics self') = v)%Z /\
  stat_status (get_statistics self') = "active" /\
  name = up_filename up /\ n = 1%Z /\ s = up_file_size up.
Proof.
  intros H. apply process_document_success_inv in H.
  destruct H as (_ & _ & _ & Hc & Hm & _ & Hv & Hd & Hs & -> & -> & -> & ->).
  unfold get_statistics. cbn. rewrite Hc, Hm, Hv, Hd, Hs. cbn.
  repeat split; try done.
  - apply lookup_insert_eq.
  - intros other Hne. by apply lookup_insert_ne.
Qed.

Lemma process_document_success_witness :
  chunks gato_processor = [clean_text (up_raw_text gato_upload)] /\
  length (tfidf_matrix gato_processor) = length (chunks gato_processor) /\
  documents gato_processor !! "gato.pdf" = Some (upload_info gato_upload 1) /\
  stat_status (get_statistics gato_processor) = "active".
Proof.
  destruct (process_document_success 0 empty_processor gato_processor gato_upload
              "gato.pdf" 1 3 18) as (H1 & H2 & _ & H4 & _ & _ & H7 & _);
    [reflexivity|].
  split; [exact H1|]. split; [exact H2|]. split; [exact H4|exact H7].
Defined.

(** X3: after a successful [process_document] no query finds anything: the
    corpus has one chunk, so every IDF weight is 0, the query vector has
    norm 0 and no similarity is above 0. *)
Theorem search_after_process_document (fuel : nat) (self self' : processor)
    (up : upload) (name : string) (n v s : Z) (query : string) (top_k : Z) :
  process_document fuel self up = Returns (self', Processed name n v s) ->
  search_similar_chunks self' query top_k = [].
Proof.
  intros H. apply process_document_success_inv in H.
  destruct H as (_ & _ & _ & Hc & Hm & Hi & _).
  unfold search_similar_chunks. rewrite Hc, Hm, Hi.
  destruct (_ || _); [done|].
  destruct (bool_decide (tokenize query = [])); [done|].
  destruct (bool_decide (_ = ∅)); [done|].
  cbn [collect]. rewrite cosine_similarity_zero_norm.
  - rewrite decide_False by apply Rlt_irrefl. rewrite slice_to_take. apply take_nil.
  - left. apply norm_all_zero. intros t w. apply single_chunk_weigh.
Qed.

Lemma search_after_process_document_witness :
  search_similar_chunks gato_processor "gato telhado" default_top_k = [].
Proof.
  apply (search_after_process_document 0 empty_processor gato_processor
           gato_upload "gato.pdf" 1 3 18).
  reflexivity.
Defined.

(** X4: for a supported extension and a text that is not blank, the call
    returns success (with any fuel, the loop is not entered) when the
    cleaned text has at most 500 words, and never returns success when it
    has more: the chunker is called with the default overlap of 50, with
    which its loop does not end. *)
Theorem process_document_long_text (fuel : nat) (self : processor) (up : upload) :
  supported_extension (up_extension up) ->
  Text.strip (up_raw_text up) <> EmptyString ->
  ((len (Text.split (clean_text (up_raw_text up))) <= 500)%Z ->
   exists self' v,
     process_document fuel self up
     = Returns (self', Processed (up_filename up) 1 v (up_file_size up))) /\
  ((500 < len (Text.split (clean_text (up_raw_text up))))%Z ->
   forall self' name n v s,
     process_document fuel self up <> Returns (self', Processed name n v s)).
Proof.
  intros Hext%supported_extension_test Hblank. split.
  - intros Hle. unfold process_document. rewrite Hext.
    destruct (Text.is_empty _) eqn:Hb.
    { destruct (Text.strip (up_raw_text up)); done. }
    rewrite split_into_chunks_at_most by done. cbn. eauto.
  - intros Hgt self' name n v s Hcall.
    apply process_document_success_inv in Hcall as (_ & _ & Hle & _).
    unfold default_chunk_size in Hle. lia.
Qed.

Lemma split_scenario_clean : clean_text scenario_text = scenario_text.
Proof. vm_compute. reflexivity. Qed.

Lemma process_document_long_text_witness :
  supported_extension (up_extension long_upload) /\
  Text.strip (up_raw_text long_upload) <> EmptyString /\
  (500 < len (Text.split (clean_text (up_raw_text long_upload))))%Z /\
  (forall self' name n v s,
     process_document 1000 empty_processor long_upload
     <> Returns (self', Processed name n v s)) /\
  (exists self' v,
     process_document 0 empty_processor gato_upload
     = Returns (self', Processed (up_filename gato_upload) 1 v
                         (up_file_size gato_upload))).
Proof.
  assert (supported_extension (up_extension long_upload)) as Hext by (by left).
  assert (Text.strip (up_raw_text long_upload) <> EmptyString) as Htext
    by (vm_compute; discriminate).
  assert (500 < len (Text.split (clean_text (up_raw_text long_upload))))%Z as Hlong.
  { cbn [long_upload up_raw_text]. rewrite split_scenario_clean, split_scenario_text.
    unfold len. rewrite length_replicate. lia. }
  split; [exact Hext|]. split; [exact Htext|]. split; [exact Hlong|]. split.
  - exact (proj2 (process_document_long_text 1000 empty_processor long_upload
                    Hext Htext) Hlong).
  - apply (process_document_long_text 0 empty_processor gato_upload).
    + by left.
    + vm_compute. discriminate.
    + vm_compute. discriminate.
Defined.

(** ** Term frequencies *)

Section TermFrequency.
Local Open Scope R_scope.
Implicit Types (m : gmap string nat) (t : string) (tokens : list string).

Lemma occurrences_all (t : string) (tokens : list string) :
  occurrences t tokens = length tokens <-> forall t', t' ∈ tokens -> t' = t.
Proof.
  induction tokens as [|a tokens IH].
  - split; [|done]. intros _ t' Ht'. by apply elem_of_nil in Ht'.
  - rewrite occurrences_cons. cbn [length].
    pose proof (length_filter (fun t' => t = t') tokens) as Hle.
    fold (occurrences t tokens) in Hle.
    case_decide as Ha.
    + subst a. split.
      * intros Heq t' [->|Ht']%elem_of_cons; [done|]. apply IH; [lia|done].
      * intros Hall. f_equal. apply IH. intros t' Ht'. apply Hall. by right.
    + split; [lia|]. intros Hall. destruct Ha. symmetry. apply Hall. by left.
Qed.
End TermFrequency.

(** X5: the term frequencies of a non-empty token list have an entry
    exactly for the tokens of the list; every frequency is the number of
    occurrences over the length of the list and lies in (0, 1]; it is 1
    exactly when the list holds no other token, and of two tokens the one
    that occurs at least as often has at least the frequency of the other. *)
Theorem calculate_tf_frequencies (tokens : list string) :
  tokens <> [] ->
  (forall t, is_Some (calculate_tf tokens !! t) <-> t ∈ tokens) /\
  (forall t x, calculate_tf tokens !! t = Some x ->
     x = (INR (occurrences t tokens) / INR (length tokens))%R /\
     (0 < x <= 1)%R /\
     (x = 1%R <-> forall t', t' ∈ tokens -> t' = t)) /\
  (forall t t' x x',
     calculate_tf tokens !! t = Some x -> calculate_tf tokens !! t' = Some x' ->
     (x <= x')%R <-> occurrences t tokens <= occurrences t' tokens).
Proof.
  intros Hne.
  assert (0 < INR (length tokens))%R as Hlen
    by (apply lt_0_INR; destruct tokens; [done|cbn; lia]).
  assert (forall t x, calculate_tf tokens !! t = Some x ->
            x = (INR (occurrences t tokens) / INR (length tokens))%R /\
            0 < occurrences t tokens <= length tokens) as Hentry.
  { intros t x. rewrite calculate_tf_lookup.
    pose proof (length_filter (fun t' => t = t') tokens) as Hocc.
    fold (occurrences t tokens) in Hocc.
    destruct (occurrences t tokens) as [|k] eqn:E; [done|].
    intros Hx. split; [congruence|lia]. }
  split; [|split].
  - intros t. rewrite calculate_tf_lookup, <- occurrences_elem_of.
    destruct (occurrences t tokens) as [|k].
    + split; [by intros [? ?]|lia].
    + split; [lia|by eexists].
  - intros t x Hx. destruct (Hentry t x Hx) as [-> [Hpos Hle]].
    split; [done|].
    assert (0 < INR (occurrences t tokens))%R as Hocc by (by apply lt_0_INR).
    apply le_INR in Hle.
    split; [split|].
    + by apply Rdiv_lt_0_compat.
    + apply (Rmult_le_reg_r (INR (length tokens))); [done|].
      rewrite Rmult_1_l.
      replace (INR (occurrences t tokens) / INR (length tokens)
               * INR (length tokens))%R
        with (INR (occurrences t tokens)) by (field; lra).
      done.
    + rewrite <- (occurrences_all t tokens). split.
      * intros Heq. apply INR_eq.
        apply (Rmult_eq_compat_r (INR (length tokens))) in Heq.
        rewrite Rmult_1_l in Heq. rewrite <- Heq. field. lra.
      * intros ->. apply Rdiv_diag. lra.
  - intros t t' x x' Hx Hx'.
    destruct (Hentry t x Hx) as [-> _]. destruct (Hentry t' x' Hx') as [-> _].
    split.
    + intros Hle. apply INR_le.
      apply (Rmult_le_compat_r (INR (length tokens))) in Hle; [|lra].
      replace (INR (occurrences t tokens) / INR (length tokens)
               * INR (length tokens))%R
        with (INR (occurrences t tokens)) in Hle by (field; lra).
      replace (INR (occurrences t' tokens) / INR (length tokens)
               * INR (length tokens))%R
        with (INR (occurrences t' tokens)) in Hle by (field; lra).
      done.
    + intros Hle%le_INR. apply Rmult_le_compat_r; [|done].
      left. by apply Rinv_0_lt_compat.
Qed.

Lemma calculate_tf_frequencies_witness :
  ["gato"; "subiu"; "gato"] <> [] /\
  (forall x x',
     calculate_tf ["gato"; "subiu"; "gato"] !! "subiu" = Some x ->
     calculate_tf ["gato"; "subiu"; "gato"] !! "gato" = Some x' ->
     (x <= x')%R).
Proof.
  split; [discriminate|]. intros x x' Hx Hx'.
  destruct (calculate_tf_frequencies ["gato"; "subiu"; "gato"]) as (_ & _ & Horder);
    [discriminate|].
  apply (Horder "subiu" "gato" x x' Hx Hx'). vm_compute. lia.
Defined.

(** ** IDF table and vocabulary *)

Section Vocabulary.
Implicit Types (v : gmap string Z) (t : string) (l : list string)
  (all : list (list string)).

Lemma dense_vocabulary_empty : dense_vocabulary ∅ 0.
Proof.
  split; [by rewrite map_size_empty|]. split; [by intros t i ?%lookup_empty_Some|].
  split; [by intros t t' i ?%lookup_empty_Some|]. intros i Hi. lia.
Qed.

Lemma add_token_spec (acc : gmap string Z * Z) t :
  dense_vocabulary acc.1 acc.2 ->
  dense_vocabulary (add_token acc t).1 (add_token acc t).2 /\
  (forall t', is_Some ((add_token acc t).1 !! t') <-> is_Some (acc.1 !! t') \/ t' = t).
Proof.
  destruct acc as [v idx]. cbn [fst snd]. intros (Hsize & Hrange & Hinj & Hsurj).
  unfold add_token. destruct (v !! t) as [i|] eqn:Ht; cbn [fst snd].
  - split; [done|]. intros t'. split; [by left|].
    intros [?| ->]; [done|by eexists].
  - split.
    + split; [rewrite map_size_insert_None by done; lia|]. split; [|split].
      * intros t' i. rewrite lookup_insert. case_decide.
        -- intros [= <-]. lia.
        -- intros Hi%Hrange. lia.
      * intros t1 t2 i. rewrite !lookup_insert.
        destruct (decide (t = t1)) as [<-|?], (decide (t = t2)) as [<-|?];
          try done.
        -- intros [= <-] Hi%Hrange. lia.
        -- intros Hi%Hrange [= <-]. lia.
        -- apply Hinj.
      * intros i Hi. destruct (decide (i = idx)) as [->|Hne].
        -- exists t. apply lookup_insert_eq.
        -- destruct (Hsurj i) as [t' Ht']; [lia|]. exists t'.
           rewrite lookup_insert_ne; [done|]. intros <-. congruence.
    + intros t'. rewrite lookup_insert. case_decide as Heq.
      * split; [by right|by eexists].
      * split; [by left|]. intros [?|?]; [done|congruence].
Qed.

Lemma add_tokens_spec l (acc : gmap string Z * Z) :
  dense_vocabulary acc.1 acc.2 ->
  dense_vocabulary (foldl add_token acc l).1 (foldl add_token acc l).2 /\
  (forall t, is_Some ((foldl add_token acc l).1 !! t)
             <-> is_Some (acc.1 !! t) \/ t ∈ l).
Proof.
  revert acc. induction l as [|a l IH]; intros acc Hacc; cbn [foldl].
  - split; [done|]. intros t. rewrite elem_of_nil. tauto.
  - destruct (add_token_spec acc a Hacc) as [Hdense Hkeys].
    destruct (IH _ Hdense) as [Hdense' Hkeys']. split; [done|].
    intros t. rewrite Hkeys', Hkeys, elem_of_cons. tauto.
Qed.

Lemma fold_vocabulary_spec all (acc : gmap string Z * Z) :
  let step := fun acc l => foldl add_token acc (set_of l) in
  dense_vocabulary acc.1 acc.2 ->
  dense_vocabulary (foldl step acc all).1 (foldl step acc all).2 /\
  (forall t, is_Some ((foldl step acc all).1 !! t)
             <-> is_Some (acc.1 !! t) \/ corpus_token all t).
Proof.
  cbv zeta. revert acc. induction all as [|l all IH]; intros acc Hacc; cbn [foldl].
  - split; [done|]. intros t. split; [by left|].
    intros [?|(l & Hl & _)]; [done|]. by apply elem_of_nil in Hl.
  - destruct (add_tokens_spec (set_of l) acc Hacc) as [Hdense Hkeys].
    destruct (IH _ Hdense) as [Hdense' Hkeys']. split; [done|].
    intros t. rewrite Hkeys', Hkeys, elem_of_set_of. unfold corpus_token. split.
    + intros [[?|?]|(l' & ? & ?)]; [by left|right|right].
      * exists l. split; [by left|done].
      * exists l'. split; [by right|done].
    + intros [?|(l' & [->|?]%elem_of_cons & ?)]; [by left; left|by left; right|].
      right. by exists l'.
Qed.

Lemma build_vocabulary_spec all :
  dense_vocabulary (build_vocabulary all) (Z.of_nat (size (build_vocabulary all))) /\
  (forall t, is_Some (build_vocabulary all !! t) <-> corpus_token all t).
Proof.
  destruct (fold_vocabulary_spec all (∅, 0%Z) dense_vocabulary_empty)
    as [Hdense Hkeys].
  unfold build_vocabulary. split.
  - destruct Hdense as (Hsize & Hrest). by rewrite <- Hsize.
  - intros t. rewrite Hkeys. cbn. rewrite lookup_empty. split; [|by right].
    by intros [[? ?]|?].
Qed.

Lemma calculate_idf_is_Some all t :
  is_Some (calculate_idf all !! t) <-> corpus_token all t.
Proof.
  rewrite calculate_idf_lookup. unfold corpus_token.
  rewrite <- document_frequency_pos.
  destruct (document_frequency t all) as [|k].
  - split; [by intros [? ?]|lia].
  - split; [lia|by eexists].
Qed.
End Vocabulary.

(** X6: the IDF table has an entry exactly for the tokens that occur in
    some chunk of the corpus; for a corpus without chunks it is empty. *)
Theorem calculate_idf_keys (all_chunks_tokens : list (list string)) (t : string) :
  (is_Some (calculate_idf all_chunks_tokens !! t)
   <-> exists chunk_tokens, chunk_tokens ∈ all_chunks_tokens /\ t ∈ chunk_tokens) /\
  calculate_idf [] = ∅.
Proof. split; [apply calculate_idf_is_Some|reflexivity]. Qed.

(** X7: [calculate_tfidf_matrix] returns one vector per chunk and a
    vocabulary with the same keys as the IDF table it stores, the tokens of
    the corpus; the identifiers of the vocabulary are pairwise different and
    are exactly the numbers from 0 to the size of the vocabulary minus 1.
    Apart from the IDF table the processor is left as it was. *)
Theorem calculate_tfidf_matrix_vocabulary (self : processor) (chunks : list string) :
  let '(self', (tfidf_matrix, vocabulary)) := calculate_tfidf_matrix self chunks in
  length tfidf_matrix = length chunks /\
  dom vocabulary = dom (idf_scores self') /\
  (forall t, is_Some (vocabulary !! t) <-> exists c, c ∈ chunks /\ t ∈ tokenize c) /\
  dense_vocabulary vocabulary (Z.of_nat (size vocabulary)) /\
  self' = set_idf_scores self (calculate_idf (tokenize <$> chunks)).
Proof.
  unfold calculate_tfidf_matrix. cbn.
  destruct (build_vocabulary_spec (tokenize <$> chunks)) as [Hdense Hkeys].
  split; [by rewrite !length_fmap|]. split; [|split; [|done]].
  - apply set_eq. intros t. rewrite !elem_of_dom, Hkeys.
    by rewrite calculate_idf_is_Some.
  - intros t. rewrite Hkeys. unfold corpus_token. split.
    + intros (l & (c & -> & Hc)%list_elem_of_fmap & Ht). by exists c.
    + intros (c & Hc & Ht). exists (tokenize c). split; [|done].
      by apply list_elem_of_fmap_2.
Qed.

(** ** Weights and similarities are never negative *)

Section CosineRange.
Local Open Scope R_scope.
Implicit Types (v : gmap string R).

Lemma sum_fmap_nonneg {A} (h : A -> R) (l : list A) :
  (forall x, 0 <= h x) -> 0 <= sum (h <$> l).
Proof. intros Hh. apply sum_nonneg, Forall_fmap, Forall_forall. intros x _. apply Hh. Qed.

Lemma item_nonneg v t : nonnegative v -> 0 <= item v t.
Proof.
  intros Hv. unfold item. destruct (v !! t) as [w|] eqn:Hw; cbn; [by eapply Hv|lra].
Qed.

Lemma cosine_similarity_nonneg (vec1 vec2 : gmap string R) :
  nonnegative vec1 -> nonnegative vec2 -> 0 <= cosine_similarity vec1 vec2.
Proof.
  intros H1 H2. unfold cosine_similarity. case_decide; [lra|].
  case_decide as Hn; [lra|].
  apply Rle_mult_inv_pos.
  - apply sum_fmap_nonneg. intros t.
    apply Rmult_le_pos; by apply item_nonneg.
  - pose proof (sqrt_pos (sum (squares vec1))).
    pose proof (sqrt_pos (sum (squares vec2))).
    rewrite !norm_sqrt in *. apply Rmult_lt_0_compat; lra.
Qed.

Lemma weigh_nonnegative (all : list (list string)) (tokens : list string) :
  nonnegative (weigh (calculate_idf all) (calculate_tf tokens)).
Proof.
  intros t w. rewrite weigh_lookup.
  destruct (calculate_tf tokens !! t) as [x|] eqn:Hx; [|done].
  destruct (calculate_idf all !! t) as [i|] eqn:Hi; [|done].
  cbn. intros [= <-].
  rewrite calculate_tf_lookup in Hx. rewrite calculate_idf_lookup in Hi.
  pose proof (occurrences_elem_of t tokens) as Hocc.
  destruct (occurrences t tokens) as [|k]; [done|].
  pose proof (document_frequency_le t all) as Hle.
  destruct (document_frequency t all) as [|j]; [done|].
  assert (x = INR (S k) / INR (length tokens)) as -> by congruence.
  assert (i = ln (INR (length all) / INR (S j))) as -> by congruence.
  apply Rmult_le_pos.
  - left. apply tf_pos. intros ->. apply elem_of_nil with t. apply Hocc. lia.
  - apply ln_ratio_nonneg. lia.
Qed.
End CosineRange.

(** ** What search_similar_chunks returns *)

Section SearchHits.
Local Open Scope R_scope.
Implicit Types (h : hit) (l : list hit) (q : gmap string R).

Lemma insert_desc_perm h l : insert_desc h l ≡ₚ h :: l.
Proof.
  induction l as [|h' l IH]; [done|]. cbn. case_decide; [|done].
  rewrite IH. apply Permutation_swap.
Qed.

Lemma sort_desc_perm l : sort_desc l ≡ₚ l.
Proof.
  induction l as [|h l IH]; [done|]. cbn. by rewrite insert_desc_perm, IH.
Qed.

Lemma StronglySorted_take {A} (R : A -> A -> Prop) (n : nat) (l : list A) :
  StronglySorted R l -> StronglySorted R (take n l).
Proof.
  intros H. revert n.
  induction H as [|x l Hl IH Hall]; intros [|n]; cbn; try constructor.
  - apply IH.
  - by apply Forall_take.
Qed.

Lemma insert_desc_ranked h l :
  StronglySorted ranked_before l -> Forall (index_before h) l ->
  StronglySorted ranked_before (insert_desc h l).
Proof.
  induction 1 as [|h' l Hl IH Hall]; intros Hidx; cbn.
  - by repeat constructor.
  - inversion Hidx as [|? ? Hh' Hl']; subst. case_decide as Hlt.
    + constructor; [by apply IH|].
      apply insert_desc_Forall; [by left|done].
    + constructor; [by constructor|]. constructor.
      * destruct (Rle_lt_or_eq_dec (similarity h') (similarity h)) as [?|?];
          [lra|by left|by right].
      * rewrite Forall_forall in Hall, Hl'. apply Forall_forall.
        intros x Hx. specialize (Hall x Hx). specialize (Hl' x Hx).
        destruct Hall as [?|[Heq _]].
        -- left. lra.
        -- destruct (Rle_lt_or_eq_dec (similarity h') (similarity h)) as [?|?];
             [lra|left; lra|right; split; [congruence|done]].
Qed.

(** The sort keeps hits of equal similarity in the order of their chunks. *)
Lemma sort_desc_ranked l :
  StronglySorted index_before l -> StronglySorted ranked_before (sort_desc l).
Proof.
  induction 1 as [|h l Hl IH Hall]; [constructor|].
  cbn. apply insert_desc_ranked; [done|]. by apply sort_desc_Forall.
Qed.

Lemma StronglySorted_snoc {A} (R : A -> A -> Prop) (l : list A) (x : A) :
  StronglySorted R l -> Forall (fun y => R y x) l -> StronglySorted R (l ++ [x]).
Proof.
  induction 1 as [|y l Hl IH Hall]; intros Hx; cbn; [by repeat constructor|].
  inversion Hx; subst. constructor; [by apply IH|].
  apply Forall_app. split; [done|by repeat constructor].
Qed.

Lemma collect_spec (chunks : list string) q (rows : list (gmap string R)) :
  forall (i : nat) (acc result : list hit),
    collect chunks q i rows acc = Some result ->
    Forall (fun h => (chunk_index h < Z.of_nat i)%Z) acc ->
    StronglySorted index_before acc ->
    exists new, result = acc ++ new /\
      Forall (row_hit chunks q i rows) new /\
      StronglySorted index_before result /\
      (forall (j : nat) row, rows !! j = Some row -> 0 < cosine_similarity q row ->
         exists h, h ∈ new /\ chunk_index h = Z.of_nat (i + j)).
Proof.
  induction rows as [|row rows IH]; intros i acc result; cbn [collect].
  - intros [= <-] _ Hsorted. exists []. rewrite app_nil_r.
    repeat split; [constructor|done|]. intros j row' Hj. by destruct j.
  - assert (forall new, Forall (row_hit chunks q (S i) rows) new ->
                        Forall (row_hit chunks q i (row :: rows)) new) as Hshift.
    { intros new Hnew. eapply Forall_impl; [exact Hnew|].
      intros h (j & r & H1 & H2 & H3 & H4 & H5).
      exists (S j), r. replace (i + S j)%nat with (S i + j)%nat by lia. done. }
    case_decide as Hpos.
    + destruct (chunks !! i) as [c|] eqn:Hc; [|done].
      set (h0 := {| chunk_index := Z.of_nat i; content := c;
                    similarity := cosine_similarity q row |}).
      intros Hcollect Hacc Hsorted.
      destruct (IH (S i) (acc ++ [h0]) result Hcollect) as (new & -> & Hnew & Hs & Hall).
      { apply Forall_app. split.
        - eapply Forall_impl; [exact Hacc|]. cbn. intros; lia.
        - repeat constructor. cbn. lia. }
      { apply StronglySorted_snoc; [done|].
        eapply Forall_impl; [exact Hacc|]. intros x Hx.
        unfold index_before, h0. cbn in *. lia. }
      exists (h0 :: new). rewrite <- app_assoc. split; [done|].
      split; [|split; [by rewrite <- app_assoc in Hs|]].
      * constructor; [|by apply Hshift].
        exists 0%nat, row. rewrite Nat.add_0_r. by repeat split.
      * intros [|j] row' Hj Hrow'.
        -- exists h0. split; [by left|]. cbn. f_equal. lia.
        -- destruct (Hall j row' Hj Hrow') as (h & Hh & Hidx).
           exists h. split; [by right|]. rewrite Hidx. f_equal. lia.
    + intros Hcollect Hacc Hsorted.
      destruct (IH (S i) acc result Hcollect) as (new & -> & Hnew & Hs & Hall).
      { eapply Forall_impl; [exact Hacc|]. cbn. intros; lia. }
      { done. }
      exists new. split; [done|]. split; [by apply Hshift|]. split; [done|].
      intros [|j] row' Hj Hrow'.
      * cbn in Hj. injection Hj as <-. done.
      * destruct (Hall j row' Hj Hrow') as (h & Hh & Hidx).
        exists h. split; [done|]. rewrite Hidx. f_equal. lia.
Qed.

Lemma collect_total (chunks : list string) q (rows : list (gmap string R)) :
  forall (i : nat) (acc : list hit),
    (i + length rows <= length chunks)%nat ->
    is_Some (collect chunks q i rows acc).
Proof.
  induction rows as [|row rows IH]; intros i acc Hlen; cbn [collect]; [by eexists|].
  cbn [length] in Hlen. case_decide.
  - destruct (lookup_lt_is_Some_2 chunks i) as [c ->]; [lia|]. apply IH. lia.
  - apply IH. lia.
Qed.

Lemma index_before_NoDup l :
  StronglySorted index_before l -> NoDup (chunk_index <$> l).
Proof.
  induction 1 as [|h l Hl IH Hall]; [constructor|].
  cbn. constructor; [|done]. intros (h' & Heq & Hin)%list_elem_of_fmap.
  rewrite Forall_forall in Hall. specialize (Hall h' Hin).
  unfold index_before in Hall. lia.
Qed.
End SearchHits.

Lemma collect_length (chunks : list string) (q : gmap string R)
    (rows : list (gmap string R)) :
  forall (i : nat) (acc result : list hit),
    collect chunks q i rows acc = Some result ->
    length result <= length acc + length rows.
Proof.
  induction rows as [|row rows IH]; intros i acc result; cbn [collect length].
  - intros [= <-]. lia.
  - case_decide as Hpos.
    + destruct (chunks !! i); [|done]. intros Hr%IH.
      rewrite length_app in Hr. cbn in Hr. lia.
    + intros Hr%IH. lia.
Qed.

(** X9: the search returns the empty list, not an error, when nothing was
    processed (no chunks or no vectors), when the query has no token left
    after tokenizing (for instance only stop words), and when no token of the
    query is in the IDF table. *)
Theorem search_similar_chunks_empty (self : processor) (query : string) (top_k : Z) :
  (chunks self = [] \/ tfidf_matrix self = [] ->
   search_similar_chunks self query top_k = []) /\
  (tokenize query = [] -> search_similar_chunks self query top_k = []) /\
  ((forall t, t ∈ tokenize query -> idf_scores self !! t = None) ->
   search_similar_chunks self query top_k = []).
Proof.
  unfold search_similar_chunks. split; [|split].
  - intros [H|H]; rewrite H.
    + by rewrite bool_decide_true.
    + rewrite (bool_decide_true (@nil (gmap string R) = [])) by done.
      by rewrite orb_true_r.
  - intros ->. by destruct (_ || _).
  - intros Hnone. destruct (_ || _); [done|].
    destruct (bool_decide (tokenize query = [])); [done|].
    rewrite bool_decide_true; [done|].
    apply map_eq. intros t. rewrite weigh_lookup, lookup_empty.
    destruct (calculate_tf (tokenize query) !! t) as [x|] eqn:Hx; [|done]. cbn.
    rewrite Hnone; [done|].
    rewrite calculate_tf_lookup in Hx. apply occurrences_elem_of.
    destruct (occurrences t (tokenize query)); [done|lia].
Qed.

Lemma search_similar_chunks_empty_witness :
  tokenize "de a o" = [] /\
  search_similar_chunks gato_processor "de a o" default_top_k = [] /\
  search_similar_chunks empty_processor "gato" default_top_k = [].
Proof.
  destruct (search_similar_chunks_empty gato_processor "de a o" default_top_k)
    as (_ & H2 & _).
  destruct (search_similar_chunks_empty empty_processor "gato" default_top_k)
    as (H1 & _ & _).
  split; [vm_compute; reflexivity|]. split.
  - apply H2. vm_compute. reflexivity.
  - apply H1. left. reflexivity.
Defined.

(** X10: every result is the hit of one chunk: its index is the position of
    a stored vector, its content the chunk at that position, its similarity
    the cosine of the query vector and that vector, above 0.  No chunk is
    returned twice, and the results are ranked by similarity with ties in
    the order of the chunks. *)
Theorem search_similar_chunks_hits (self : processor) (query : string) (top_k : Z) :
  let result := search_similar_chunks self query top_k in
  Forall (fun h => exists i, hit_of self query h i) result /\
  NoDup (chunk_index <$> result) /\
  StronglySorted ranked_before result.
Proof.
  cbv zeta. unfold search_similar_chunks.
  assert (Forall (fun h => exists i, hit_of self query h i) [] /\
          NoDup (chunk_index <$> []) /\ StronglySorted ranked_before [])
    as Hnil by (split; [constructor|split; constructor]).
  destruct (_ || _); [done|].
  destruct (bool_decide _); [done|]. destruct (bool_decide _); [done|].
  fold (query_tfidf self query).
  destruct (collect _ _ _ _ _) as [similarities|] eqn:Hcollect; [|done].
  apply collect_spec in Hcollect as (new & -> & Hnew & Hsorted & _);
    [|constructor|constructor].
  cbn [app] in *. rewrite slice_to_take. split; [|split].
  - apply Forall_take, sort_desc_Forall.
    eapply Forall_impl; [exact Hnew|].
    intros h (j & row & H1 & H2 & H3 & H4 & H5). exists j.
    split; [done|]. split; [done|]. by exists row.
  - rewrite fmap_take. eapply sublist_NoDup; [|apply sublist_take].
    rewrite sort_desc_perm. by apply index_before_NoDup.
  - apply StronglySorted_take, sort_desc_ranked, Hsorted.
Qed.

Lemma search_similar_chunks_complete_aux (self : processor) (query : string)
    (top_k : Z) (i : nat) (row : gmap string R) :
  length (tfidf_matrix self) <= length (chunks self) ->
  (len (tfidf_matrix self) <= top_k)%Z ->
  tfidf_matrix self !! i = Some row ->
  (0 < cosine_similarity (query_tfidf self query) row)%R ->
  exists h, h ∈ search_similar_chunks self query top_k /\ hit_of self query h i.
Proof.
  intros Hlen Hk Hrow Hpos. unfold search_similar_chunks.
  assert (tfidf_matrix self <> []) as Hm by (intros Hnil; by rewrite Hnil in Hrow).
  assert (chunks self <> []) as Hc.
  { intros Hnil. rewrite Hnil in Hlen. cbn in Hlen. destruct (tfidf_matrix self); [done|].
    cbn in Hlen. lia. }
  assert (query_tfidf self query <> ∅) as Hq.
  { intros Hq. rewrite Hq in Hpos. unfold cosine_similarity in Hpos.
    rewrite dom_empty_L, intersection_empty_l_L, decide_True in Hpos by done.
    by apply Rlt_irrefl in Hpos. }
  assert (tokenize query <> []) as Ht.
  { intros Hnil. apply Hq. unfold query_tfidf. rewrite Hnil. apply map_imap_empty. }
  rewrite !bool_decide_false by done. cbn [orb].
  fold (query_tfidf self query).
  destruct (collect_total (chunks self) (query_tfidf self query) (tfidf_matrix self)
              0 []) as [similarities Hcollect]; [cbn; lia|].
  rewrite Hcollect. pose proof (collect_length _ _ _ _ _ _ Hcollect) as Hshort.
  apply collect_spec in Hcollect as (new & -> & Hnew & Hsorted & Hall);
    [|constructor|constructor].
  cbn [app length] in *.
  destruct (Hall i row Hrow Hpos) as (h & Hin & Hidx).
  exists h. split.
  - rewrite slice_to_take, take_ge.
    + by rewrite sort_desc_perm.
    + unfold clip_index, len in *.
      rewrite !(Permutation_length (sort_desc_perm new)).
      destruct (Z.ltb_spec top_k 0); lia.
  - rewrite Forall_forall in Hnew.
    destruct (Hnew h Hin) as (j & r & H1 & H2 & H3 & H4 & H5).
    assert (j = i) as -> by (cbn in *; lia).
    split; [done|]. split; [done|]. by exists r.
Qed.

(** X11: when every vector has its chunk beside it and [top_k] is at least
    the number of vectors, every chunk whose vector has a similarity above 0
    with the query vector is among the results. *)
Theorem search_similar_chunks_complete (self : processor) (query : string)
    (top_k : Z) (i : nat) (row : gmap string R) :
  length (tfidf_matrix self) <= length (chunks self) ->
  (len (tfidf_matrix self) <= top_k)%Z ->
  tfidf_matrix self !! i = Some row ->
  (0 < cosine_similarity (query_tfidf self query) row)%R ->
  exists h, h ∈ search_similar_chunks self query top_k /\ hit_of self query h i.
Proof. apply search_similar_chunks_complete_aux. Qed.

(** ** Which chunks a query finds *)

Section Found.
Local Open Scope R_scope.

Lemma sum_pos_exists (l : list R) : 0 < sum l -> exists x, x ∈ l /\ 0 < x.
Proof.
  induction l as [|y l IH]; [unfold sum; cbn; lra|].
  rewrite sum_cons. intros Hpos.
  destruct (Rlt_le_dec 0 y) as [Hy|Hy].
  - exists y. split; [by left|done].
  - destruct IH as (x & Hx & Hx0); [lra|]. exists x. split; [by right|done].
Qed.

(** Two vectors without negative weights have a similarity above 0 exactly
    when they share a key on which both weights are positive. *)
Lemma cosine_similarity_pos_iff (vec1 vec2 : gmap string R) :
  nonnegative vec1 -> nonnegative vec2 ->
  0 < cosine_similarity vec1 vec2 <->
  exists t w1 w2, vec1 !! t = Some w1 /\ vec2 !! t = Some w2 /\ 0 < w1 /\ 0 < w2.
Proof.
  intros H1 H2.
  assert (forall v : gmap string R, 0 <= norm v) as Hnorm
    by (intros v; rewrite norm_sqrt; apply sqrt_pos).
  unfold cosine_similarity. split.
  - case_decide as Hcommon; [intros ?%Rlt_irrefl; done|].
    case_decide as Hn; [intros ?%Rlt_irrefl; done|].
    intros Hpos.
    assert (0 < norm vec1 * norm vec2) as Hd
      by (pose proof (Hnorm vec1); pose proof (Hnorm vec2);
          apply Rmult_lt_0_compat; lra).
    set (dot := sum _) in *.
    assert (0 < dot) as Hdot.
    { destruct (Rlt_le_dec 0 dot) as [?|Hle]; [done|]. exfalso.
      assert (dot / (norm vec1 * norm vec2) <= 0); [|lra].
      apply (Rmult_le_reg_r (norm vec1 * norm vec2)); [done|].
      replace (dot / (norm vec1 * norm vec2) * (norm vec1 * norm vec2))
        with dot by (field; lra). lra. }
    apply sum_pos_exists in Hdot as (x & (t & -> & Ht)%list_elem_of_fmap & Hx).
    apply elem_of_elements, elem_of_intersection in Ht as [Ht1 Ht2].
    apply elem_of_dom in Ht1 as [w1 Hw1]. apply elem_of_dom in Ht2 as [w2 Hw2].
    unfold item in Hx. rewrite Hw1, Hw2 in Hx. cbn in Hx.
    pose proof (H1 t w1 Hw1). pose proof (H2 t w2 Hw2).
    exists t, w1, w2. repeat split; [done|done|nra|nra].
  - intros (t & w1 & w2 & Hw1 & Hw2 & Hp1 & Hp2).
    assert (t ∈ dom vec1 ∩ dom vec2) as Ht
      by (apply elem_of_intersection; split; apply elem_of_dom; by eexists).
    rewrite decide_False by (intros Hempty; rewrite Hempty in Ht; set_solver).
    assert (norm vec1 <> 0) by (apply (norm_nonzero vec1 t w1); [done|lra]).
    assert (norm vec2 <> 0) by (apply (norm_nonzero vec2 t w2); [done|lra]).
    rewrite decide_False by tauto.
    apply Rdiv_lt_0_compat.
    + apply Rlt_le_trans with (w1 * w2); [nra|].
      apply sum_ge_elem.
      * apply Forall_fmap, Forall_forall. intros t' _. cbn.
        apply Rmult_le_pos; by apply item_nonneg.
      * apply list_elem_of_fmap. exists t. split; [|by apply elem_of_elements].
        unfold item. by rewrite Hw1, Hw2.
    + pose proof (Hnorm vec1). pose proof (Hnorm vec2).
      apply Rmult_lt_0_compat; lra.
Qed.

Lemma ln_ratio_pos (n k : nat) :
  (1 <= k <= n)%nat -> 0 < ln (INR n / INR k) <-> k <> n.
Proof.
  intros H. pose proof (ln_ratio_nonneg n k H) as Hge.
  pose proof (ln_ratio_zero n k H) as Hzero.
  split.
  - intros Hpos Heq. apply Hzero in Heq. lra.
  - intros Hne. destruct (Req_dec (ln (INR n / INR k)) 0); [tauto|lra].
Qed.

(** A weighted entry is positive exactly for a token of the text that
    occurs in some chunk of the corpus but not in all of them. *)
Lemma weigh_positive (all : list (list string)) (tokens : list string) (t : string) :
  (exists w, weigh (calculate_idf all) (calculate_tf tokens) !! t = Some w /\ 0 < w)
  <-> t ∈ tokens /\ corpus_token all t /\ exists l, l ∈ all /\ t ∉ l.
Proof.
  rewrite weigh_lookup, calculate_tf_lookup, calculate_idf_lookup.
  pose proof (occurrences_elem_of t tokens) as Hocc.
  pose proof (document_frequency_pos t all) as Hdf.
  pose proof (document_frequency_all t all) as Hall.
  pose proof (document_frequency_le t all) as Hle.
  unfold corpus_token.
  destruct (occurrences t tokens) as [|k].
  { split; [by intros (w & ? & _)|]. intros (?%Hocc & _). lia. }
  assert (t ∈ tokens) as Ht by (apply Hocc; lia).
  assert (tokens <> []) as Hne
    by (intros ->; by apply elem_of_nil in Ht).
  destruct (document_frequency t all) as [|j].
  { split; [by intros (w & ? & _)|]. intros (_ & ?%Hdf & _). lia. }
  assert (1 <= S j <= length all)%nat as Hj by lia.
  pose proof (tf_pos k tokens Hne) as Htf.
  pose proof (ln_ratio_pos _ _ Hj) as Hln.
  pose proof (ln_ratio_nonneg _ _ Hj) as Hge.
  split.
  - intros (w & Hw & Hpos).
    change (Some (INR (S k) / INR (length tokens)
                  * ln (INR (length all) / INR (S j))) = Some w) in Hw.
    assert (w = INR (S k) / INR (length tokens) * ln (INR (length all) / INR (S j)))
      as -> by congruence.
    split; [done|]. split; [apply Hdf; lia|].
    assert (S j <> length all) as Hneq.
    { apply Hln. destruct Hge as [?|Hz]; [done|]. rewrite <- Hz in Hpos. lra. }
    destruct (decide (Forall (fun l => t ∈ l) all)) as [Hf|Hf].
    + destruct Hneq. apply Hall. intros l Hl. rewrite Forall_forall in Hf. by apply Hf.
    + apply not_Forall_Exists in Hf; [|apply _].
      apply Exists_exists in Hf as (l & Hl & Hnot). by exists l.
  - intros (_ & _ & l & Hl & Hnot).
    exists (INR (S k) / INR (length tokens) * ln (INR (length all) / INR (S j))).
    split; [done|]. apply Rmult_lt_0_compat; [done|]. apply Hln.
    intros Heq. apply Hnot. by apply Hall.
Qed.
End Found.

(** X12: in an indexed processor, a chunk whose vector is stored has a
    similarity above 0 with the query exactly when the query and the chunk
    share a token that some chunk of the corpus lacks; with [top_k] at least
    the number of vectors these are exactly the chunks the search returns. *)
Theorem search_similar_chunks_finds (self : processor) (query : string)
    (top_k : Z) (i : nat) (chunk : string) :
  indexed self ->
  chunks self !! i = Some chunk ->
  (len (tfidf_matrix self) <= top_k)%Z ->
  (exists h, h ∈ search_similar_chunks self query top_k /\ hit_of self query h i)
  <-> exists t, t ∈ tokenize query /\ t ∈ tokenize chunk /\
                distinctive (chunks self) t.
Proof.
  intros [Hm Hidf] Hi Hk.
  assert (tfidf_matrix self !! i
          = Some (weigh (calculate_idf (tokenize <$> chunks self))
                    (calculate_tf (tokenize chunk)))) as Hrow
    by (by rewrite Hm, matrix_lookup, Hi).
  assert (length (tfidf_matrix self) = length (chunks self)) as Hlen
    by (rewrite Hm; unfold calculate_tfidf_matrix; cbn; by rewrite !length_fmap).
  assert (query_tfidf self query
          = weigh (calculate_idf (tokenize <$> chunks self))
              (calculate_tf (tokenize query))) as Hq
    by (unfold query_tfidf; by rewrite Hidf).
  assert ((0 < cosine_similarity (query_tfidf self query)
                 (weigh (calculate_idf (tokenize <$> chunks self))
                    (calculate_tf (tokenize chunk))))%R
          <-> exists t, t ∈ tokenize query /\ t ∈ tokenize chunk /\
                        distinctive (chunks self) t) as Hpos.
  { rewrite Hq, cosine_similarity_pos_iff by apply weigh_nonnegative. split.
    - intros (t & w1 & w2 & Hw1 & Hw2 & Hp1 & Hp2). exists t.
      destruct (proj1 (weigh_positive _ _ t) (ex_intro _ w1 (conj Hw1 Hp1)))
        as (Ht1 & _ & l & (c & -> & Hc)%list_elem_of_fmap & Hnot).
      destruct (proj1 (weigh_positive _ _ t) (ex_intro _ w2 (conj Hw2 Hp2)))
        as (Ht2 & _).
      split; [done|]. split; [done|]. by exists c.
    - intros (t & Ht1 & Ht2 & c & Hc & Hnot).
      assert (corpus_token (tokenize <$> chunks self) t) as Hcorpus.
      { exists (tokenize chunk). split; [|done].
        apply list_elem_of_fmap_2. by eapply list_elem_of_lookup_2. }
      assert (exists l, l ∈ tokenize <$> chunks self /\ t ∉ l) as Hlack.
      { exists (tokenize c). split; [by apply list_elem_of_fmap_2|done]. }
      destruct (proj2 (weigh_positive (tokenize <$> chunks self) (tokenize query) t))
        as (w1 & Hw1 & Hp1); [done|].
      destruct (proj2 (weigh_positive (tokenize <$> chunks self) (tokenize chunk) t))
        as (w2 & Hw2 & Hp2); [done|].
      by exists t, w1, w2. }
  rewrite <- Hpos. split.
  - intros (h & _ & _ & _ & row & Hrow' & Hsim & Hgt).
    rewrite Hrow in Hrow'. injection Hrow' as <-. by rewrite <- Hsim.
  - intros Hgt.
    apply (search_similar_chunks_complete_aux self query top_k i _ (Nat.eq_le_incl _ _ Hlen) Hk Hrow Hgt).
Qed.

(** ** Similarity of weighted vectors *)

(** C4, as the code has it.  For vectors weighted with the IDF table of a
    corpus, chunk vectors and query vectors, the similarity is never
    negative and is above 0 in one order of the arguments exactly when it is
    in the other.  The similarity of a chunk vector with itself is 0 when
    every token of the chunk occurs in every chunk of the corpus (all its
    weights are 0 and the guard on the norms answers 0), and above 0 when
    the chunk has a token that some chunk lacks. *)
Theorem cosine_similarity_symmetric_self (chunks : list string) :
  (forall tokens1 tokens2 : list string,
     let v1 := weigh (calculate_idf (tokenize <$> chunks)) (calculate_tf tokens1) in
     let v2 := weigh (calculate_idf (tokenize <$> chunks)) (calculate_tf tokens2) in
     (0 <= cosine_similarity v1 v2)%R /\
     ((0 < cosine_similarity v1 v2)%R <-> (0 < cosine_similarity v2 v1)%R)) /\
  (forall (self : processor) (i : nat) (chunk : string) (v : gmap string R),
     chunks !! i = Some chunk ->
     (calculate_tfidf_matrix self chunks).2.1 !! i = Some v ->
     ((forall t c, t ∈ tokenize chunk -> c ∈ chunks -> t ∈ tokenize c) ->
      cosine_similarity v v = 0%R) /\
     ((exists t c, t ∈ tokenize chunk /\ c ∈ chunks /\ t ∉ tokenize c) ->
      (0 < cosine_similarity v v)%R)).
Proof.
  split.
  - intros tokens1 tokens2. cbv zeta. split.
    + apply cosine_similarity_nonneg; apply weigh_nonnegative.
    + by rewrite cosine_similarity_comm.
  - intros self i chunk v Hi Hv.
    rewrite matrix_lookup, Hi in Hv. injection Hv as Hv. split.
    + intros Hall. apply cosine_similarity_zero_norm. left.
      by apply (chunk_vector_zero chunks i chunk v).
    + intros (t & c & Ht & Hc & Hnot).
      destruct (chunk_vector_entry chunks i chunk v t Hi (eq_sym Hv))
        as [Hkey Hval].
      destruct (proj2 Hkey Ht) as [w Hw].
      destruct (Hval w Hw) as [Hge Hzero].
      assert (0 < w)%R as Hpos.
      { destruct Hge as [?|Heq]; [done|]. destruct Hnot.
        by apply (proj1 Hzero). }
      assert (nonnegative v) as Hnonneg by (subst v; apply weigh_nonnegative).
      apply cosine_similarity_pos_iff; [done|done|].
      exists t, w, w. done.
Qed.

(** ** The sign of the cosine similarity *)

Section CosineSign.
Local Open Scope R_scope.

Lemma corpus_token_chunks (chunks : list string) (t : string) :
  corpus_token (tokenize <$> chunks) t <-> exists c, c ∈ chunks /\ t ∈ tokenize c.
Proof.
  unfold corpus_token. split.
  - intros (l & (c & -> & Hc)%list_elem_of_fmap & Ht). by exists c.
  - intros (c & Hc & Ht). exists (tokenize c). split; [|done].
    by apply list_elem_of_fmap_2.
Qed.

Lemma lacking_chunk (chunks : list string) (t : string) :
  (exists l, l ∈ tokenize <$> chunks /\ t ∉ l) <-> distinctive chunks t.
Proof.
  unfold distinctive. split.
  - intros (l & (c & -> & Hc)%list_elem_of_fmap & Ht). by exists c.
  - intros (c & Hc & Ht). exists (tokenize c). split; [|done].
    by apply list_elem_of_fmap_2.
Qed.

Lemma weighted_similarity_pos (chunks : list string) (tokens1 tokens2 : list string) :
  0 < cosine_similarity
        (weigh (calculate_idf (tokenize <$> chunks)) (calculate_tf tokens1))
        (weigh (calculate_idf (tokenize <$> chunks)) (calculate_tf tokens2))
  <-> exists t, t ∈ tokens1 /\ t ∈ tokens2 /\
                (exists c, c ∈ chunks /\ t ∈ tokenize c) /\ distinctive chunks t.
Proof.
  rewrite cosine_similarity_pos_iff by apply weigh_nonnegative. split.
  - intros (t & w1 & w2 & Hw1 & Hw2 & Hp1 & Hp2).
    destruct (proj1 (weigh_positive (tokenize <$> chunks) tokens1 t)) as (Ht1 & Hcorpus & Hlack);
      [by exists w1|].
    destruct (proj1 (weigh_positive (tokenize <$> chunks) tokens2 t)) as (Ht2 & _ & _);
      [by exists w2|].
    exists t. split; [done|]. split; [done|].
    split; [by apply corpus_token_chunks|by apply lacking_chunk].
  - intros (t & Ht1 & Ht2 & Hcorpus%corpus_token_chunks & Hlack%lacking_chunk).
    destruct (proj2 (weigh_positive (tokenize <$> chunks) tokens1 t) (conj Ht1 (conj Hcorpus Hlack)))
      as (w1 & Hw1 & Hp1).
    destruct (proj2 (weigh_positive (tokenize <$> chunks) tokens2 t) (conj Ht2 (conj Hcorpus Hlack)))
      as (w2 & Hw2 & Hp2).
    by exists t, w1, w2.
Qed.
End CosineSign.

(** X8: the weights of a vector weighted with the IDF table of a corpus, a
    chunk vector or a query vector, are never negative, so the cosine
    similarity of two such vectors is never negative; it is above 0 exactly
    when the two token lists share a token that occurs in some chunk of the
    corpus and is missing from some chunk. *)
Theorem cosine_similarity_sign (chunks : list string)
    (tokens1 tokens2 : list string) :
  let v1 := weigh (calculate_idf (tokenize <$> chunks)) (calculate_tf tokens1) in
  let v2 := weigh (calculate_idf (tokenize <$> chunks)) (calculate_tf tokens2) in
  nonnegative v1 /\
  (0 <= cosine_similarity v1 v2)%R /\
  ((0 < cosine_similarity v1 v2)%R <->
   exists t, t ∈ tokens1 /\ t ∈ tokens2 /\
             (exists c, c ∈ chunks /\ t ∈ tokenize c) /\ distinctive chunks t).
Proof.
  cbv zeta. split; [apply weigh_nonnegative|]. split.
  - apply cosine_similarity_nonneg; apply weigh_nonnegative.
  - apply weighted_similarity_pos.
Qed.

(** ** Examples of searches *)

Lemma matrix_length (self : processor) (chunks : list string) :
  length (calculate_tfidf_matrix self chunks).2.1 = length chunks.
Proof. unfold calculate_tfidf_matrix. cbn [fst snd]. by rewrite !length_fmap. Qed.

Example tokenize_gato_query : tokenize "gato" = ["gato"].
Proof. vm_compute. reflexivity. Qed.

Lemma gato_distinctive :
  "gato" ∈ tokenize "gato" /\ "gato" ∈ tokenize gato_text /\
  distinctive two_chunks "gato".
Proof.
  rewrite tokenize_gato_query, tokenize_gato.
  split; [by left|]. split; [by left|].
  exists cachorro_text. split; [right; by left|].
  rewrite tokenize_cachorro. intros Hin.
  apply list_elem_of_In in Hin. cbn in Hin. intuition discriminate.
Qed.

Lemma two_chunk_row :
  tfidf_matrix two_chunk_processor !! 0%nat
  = Some (weigh (calculate_idf (tokenize <$> two_chunks))
            (calculate_tf (tokenize gato_text))).
Proof.
  unfold two_chunk_processor. cbn [tfidf_matrix]. rewrite matrix_lookup. reflexivity.
Qed.

Lemma matrix_independent (self self' : processor) (chunks : list string) :
  (calculate_tfidf_matrix self chunks).2.1 = (calculate_tfidf_matrix self' chunks).2.1.
Proof. reflexivity. Qed.

Lemma two_chunk_indexed : indexed two_chunk_processor.
Proof.
  unfold indexed, two_chunk_processor. cbn [tfidf_matrix chunks idf_scores].
  split; [apply matrix_independent|reflexivity].
Qed.

Lemma two_chunk_length :
  length (tfidf_matrix two_chunk_processor) = 2%nat.
Proof. unfold two_chunk_processor. cbn [tfidf_matrix]. by rewrite matrix_length. Qed.

Lemma gato_query_similarity :
  (0 < cosine_similarity (query_tfidf two_chunk_processor "gato")
         (weigh (calculate_idf (tokenize <$> two_chunks))
            (calculate_tf (tokenize gato_text))))%R.
Proof.
  destruct gato_distinctive as (Hq & Hc & c & Hin & Hnot).
  assert (corpus_token (tokenize <$> two_chunks) "gato") as Hcorpus.
  { exists (tokenize gato_text). split; [by left|done]. }
  assert (exists l, l ∈ tokenize <$> two_chunks /\ "gato" ∉ l) as Hlack.
  { exists (tokenize c). split; [by apply list_elem_of_fmap_2|done]. }
  unfold query_tfidf, two_chunk_processor. cbn [idf_scores].
  apply cosine_similarity_pos_iff; [apply weigh_nonnegative..|].
  destruct (proj2 (weigh_positive (tokenize <$> two_chunks) (tokenize "gato") "gato")
              (conj Hq (conj Hcorpus Hlack))) as (w1 & Hw1 & Hp1).
  destruct (proj2 (weigh_positive (tokenize <$> two_chunks) (tokenize gato_text) "gato")
              (conj Hc (conj Hcorpus Hlack))) as (w2 & Hw2 & Hp2).
  exists "gato", w1, w2. exact (conj Hw1 (conj Hw2 (conj Hp1 Hp2))).
Qed.

Lemma search_similar_chunks_complete_witness :
  exists h, h ∈ search_similar_chunks two_chunk_processor "gato" default_top_k /\
            hit_of two_chunk_processor "gato" h 0.
Proof.
  apply (search_similar_chunks_complete two_chunk_processor "gato" default_top_k 0
           (weigh (calculate_idf (tokenize <$> two_chunks))
              (calculate_tf (tokenize gato_text)))).
  - rewrite two_chunk_length. unfold two_chunk_processor, two_chunks. cbn [chunks length]. lia.
  - unfold len. rewrite two_chunk_length. unfold default_top_k. lia.
  - exact two_chunk_row.
  - exact gato_query_similarity.
Defined.

Lemma search_similar_chunks_finds_witness :
  exists h, h ∈ search_similar_chunks two_chunk_processor "gato" default_top_k /\
            hit_of two_chunk_processor "gato" h 0.
Proof.
  apply (search_similar_chunks_finds two_chunk_processor "gato" default_top_k 0
           gato_text).
  - exact two_chunk_indexed.
  - reflexivity.
  - unfold len. rewrite two_chunk_length. unfold default_top_k. lia.
  - exists "gato". exact gato_distinctive.
Defined.

Lemma cosine_similarity_symmetric_self_witness :
  let v := weigh (calculate_idf (tokenize <$> two_chunks))
             (calculate_tf (tokenize gato_text)) in
  two_chunks !! 0%nat = Some gato_text /\
  (calculate_tfidf_matrix empty_processor two_chunks).2.1 !! 0%nat = Some v /\
  (exists t c, t ∈ tokenize gato_text /\ c ∈ two_chunks /\ t ∉ tokenize c) /\
  (0 < cosine_similarity v v)%R.
Proof.
  cbv zeta.
  assert ((calculate_tfidf_matrix empty_processor two_chunks).2.1 !! 0%nat
          = Some (weigh (calculate_idf (tokenize <$> two_chunks))
                    (calculate_tf (tokenize gato_text)))) as Hrow
    by (rewrite matrix_lookup; reflexivity).
  assert (exists t c, t ∈ tokenize gato_text /\ c ∈ two_chunks /\ t ∉ tokenize c)
    as Hlack.
  { destruct gato_distinctive as (_ & Ht & c & Hc & Hnot). exists "gato", c. exact (conj Ht (conj Hc Hnot)). }
  assert (two_chunks !! 0%nat = Some gato_text) as Hchunk by reflexivity.
  split; [exact Hchunk|]. split; [exact Hrow|]. split; [exact Hlack|].
  destruct (cosine_similarity_symmetric_self two_chunks) as [_ Hself].
  exact (proj2 (Hself empty_processor 0%nat gato_text
                  (weigh (calculate_idf (tokenize <$> two_chunks))
                     (calculate_tf (tokenize gato_text))) Hchunk Hrow) Hlack).
Defined.

Lemma search_similar_chunks_ranked_witness :
  (0 <= default_top_k)%Z /\
  search_similar_chunks two_chunk_processor "gato" default_top_k <> [] /\
  Forall (fun h => (0 < similarity h)%R)
    (search_similar_chunks two_chunk_processor "gato" default_top_k) /\
  descending (search_similar_chunks two_chunk_processor "gato" default_top_k) /\
  (len (search_similar_chunks two_chunk_processor "gato" default_top_k)
   <= default_top_k)%Z.
Proof.
  assert (0 <= default_top_k)%Z as Hk by (unfold default_top_k; lia).
  split; [exact Hk|]. split.
  - destruct (search_similar_chunks_complete_aux two_chunk_processor "gato"
                default_top_k 0
                (weigh (calculate_idf (tokenize <$> two_chunks))
                   (calculate_tf (tokenize gato_text)))) as (h & Hin & _).
    + rewrite two_chunk_length. unfold two_chunk_processor, two_chunks.
      cbn [chunks length]. lia.
    + unfold len. rewrite two_chunk_length. unfold default_top_k. lia.
    + exact two_chunk_row.
    + exact gato_query_similarity.
    + intros Hnil. rewrite Hnil in Hin. by apply elem_of_nil in Hin.
  - destruct (search_similar_chunks_ranked two_chunk_processor "gato" default_top_k)
      as (Hpos & Hsorted & Hlen).
    split; [exact Hpos|]. split; [exact Hsorted|]. exact (Hlen Hk).
Defined.

(** ** When the window loop ends *)

(** With [overlap <= 0] and [overlap < chunk_size] every iteration moves the
    window start forward, so the loop ends within [len words - start]
    iterations. *)
Lemma chunk_loop_returns (fuel : nat) (words : list string)
    (chunk_size overlap : Z) :
  (overlap <= 0)%Z -> (overlap < chunk_size)%Z ->
  forall (start : Z) (chunks : list string),
    (len words - start <= Z.of_nat fuel)%Z -> (0 < fuel)%nat ->
    exists result, chunk_loop fuel words chunk_size overlap start chunks
                   = Returns result.
Proof.
  intros Hov Hcs. induction fuel as [|fuel IH]; intros start chunks Hfuel Hpos; [lia|].
  cbn [chunk_loop].
  destruct (Z.ltb_spec start (len words)) as [Hlt|?]; [|by eexists].
  destruct (Z.geb_spec (Z.min (start + chunk_size) (len words) - overlap)
              (len words)) as [?|Hmore]; [by eexists|].
  apply IH; lia.
Qed.

(** X13: for a text with more words than [chunk_size], the call returns,
    within as many iterations as the text has words, exactly when
    [overlap <= 0] and [overlap < chunk_size]; for every other configuration,
    the default overlap of 50 included, the loop never ends. *)
Theorem split_into_chunks_returns_iff (text : string) (chunk_size overlap : Z) :
  Text.split text <> [] ->
  (chunk_size < len (Text.split text))%Z ->
  ((exists fuel chunks, split_into_chunks fuel text chunk_size overlap = Returns chunks)
   <-> (overlap <= 0 /\ overlap < chunk_size)%Z) /\
  ((overlap <= 0 /\ overlap < chunk_size)%Z ->
   exists chunks,
     split_into_chunks (length (Text.split text)) text chunk_size overlap
     = Returns chunks) /\
  (~ (overlap <= 0 /\ overlap < chunk_size)%Z ->
   forall fuel, split_into_chunks fuel text chunk_size overlap = Pending).
Proof.
  intros Hne Hlt.
  assert (0 < len (Text.split text))%Z as Hlen
    by (unfold len; destruct (Text.split text); [done|cbn; lia]).
  assert (forall fuel, split_into_chunks fuel text chunk_size overlap
                       = chunk_loop fuel (Text.split text) chunk_size overlap 0 [])
    as Hloop.
  { intros fuel. unfold split_into_chunks.
    destruct (Z.leb_spec (len (Text.split text)) chunk_size); [lia|done]. }
  assert ((overlap <= 0 /\ overlap < chunk_size)%Z ->
          exists chunks,
            split_into_chunks (length (Text.split text)) text chunk_size overlap
            = Returns chunks) as Hret.
  { intros [Hov Hcs]. rewrite Hloop.
    apply chunk_loop_returns; unfold len in *; lia. }
  assert (~ (overlap <= 0 /\ overlap < chunk_size)%Z ->
          forall fuel, split_into_chunks fuel text chunk_size overlap = Pending)
    as Hpend.
  { intros Hnot fuel. rewrite Hloop.
    destruct (Z.le_gt_cases overlap 0) as [Hov|Hov].
    - apply chunk_loop_pending_backwards; lia.
    - apply chunk_loop_pending; lia. }
  split; [|by split]. split.
  - intros (fuel & chunks & Hr).
    destruct (decide (overlap <= 0 /\ overlap < chunk_size)%Z) as [?|Hnot]; [done|].
    rewrite (Hpend Hnot fuel) in Hr. discriminate.
  - intros Hc. destruct (Hret Hc) as [chunks Hr]. by exists (length (Text.split text)), chunks.
Qed.

Lemma split_into_chunks_returns_iff_witness :
  (exists fuel chunks, split_into_chunks fuel "a b c" 2 0 = Returns chunks)
  <-> (0 <= 0 /\ 0 < 2)%Z.
Proof.
  apply (split_into_chunks_returns_iff "a b c" 2 0).
  - vm_compute. discriminate.
  - vm_compute. reflexivity.
Defined.

(** ** The chunks of a text without overlap *)

Lemma chunk_loop_windows (fuel : nat) (words : list string) (chunk_size overlap : Z) :
  Forall (is_run notspace) words -> (0 < chunk_size)%Z -> (overlap <= 0)%Z ->
  forall (start : Z) (chunks : list string),
    (0 <= start < len words)%Z -> (len words - start <= Z.of_nat fuel)%Z ->
    exists rest,
      chunk_loop fuel words chunk_size overlap start chunks = Returns (chunks ++ rest) /\
      Forall (fun c => 50 < String.length c /\ Text.strip c = c /\
                       (len (Text.split c) <= chunk_size)%Z) rest /\
      concat (Text.split <$> rest) `sublist_of` drop (Z.to_nat start) words.
Proof.
  intros Hwords Hcs Hov.
  induction fuel as [|fuel IH]; intros start chunks Hstart Hfuel; [lia|].
  cbn [chunk_loop]. destruct (Z.ltb_spec start (len words)) as [_|?]; [|lia].
  set (e := Z.min (start + chunk_size) (len words)).
  assert (slice words start e
          = take (Z.to_nat (e - start)) (drop (Z.to_nat start) words)) as Hslice
    by (apply slice_take_drop; lia).
  assert (Forall (is_run notspace) (slice words start e)) as Hruns
    by (rewrite Hslice; by apply Forall_take, Forall_drop).
  rewrite (strip_join _ Hruns).
  set (chunk := Text.join " " (slice words start e)).
  assert (Text.split chunk = slice words start e) as Hsplit by (by apply split_join).
  assert (len (Text.split chunk) <= chunk_size)%Z as Hwidth.
  { rewrite Hsplit, Hslice. unfold len. rewrite length_take. lia. }
  assert (drop (Z.to_nat start) words
          = slice words start e ++ drop (Z.to_nat e) words) as Hdrop.
  { rewrite Hslice.
    replace (Z.to_nat e) with (Z.to_nat start + Z.to_nat (e - start))%nat by lia.
    rewrite <- drop_drop. symmetry. apply take_drop. }
  set (new := if decide (50 < String.length chunk) then [chunk] else []).
  assert ((if decide (50 < String.length chunk) then chunks ++ [chunk] else chunks)
          = chunks ++ new) as ->
    by (unfold new; case_decide; [done|by rewrite app_nil_r]).
  assert (Forall (fun c => 50 < String.length c /\ Text.strip c = c /\
                           (len (Text.split c) <= chunk_size)%Z) new) as Hnew.
  { unfold new. case_decide; [|constructor]. repeat constructor; try done.
    by apply strip_join. }
  assert (concat (Text.split <$> new) `sublist_of` slice words start e) as Hsub.
  { unfold new. case_decide; cbn; [|apply sublist_nil_l].
    by rewrite app_nil_r, Hsplit. }
  destruct (Z.geb_spec (e - overlap) (len words)) as [Hend|Hmore].
  - exists new. split; [done|]. split; [done|].
    rewrite Hdrop. by apply sublist_inserts_r.
  - destruct (IH (e - overlap)%Z (chunks ++ new)) as (rest & Hloop & Hrest & Hsubrest);
      [lia|lia|].
    exists (new ++ rest). rewrite Hloop, <- app_assoc. split; [done|].
    split; [by apply Forall_app|].
    rewrite fmap_app, concat_app, Hdrop. apply sublist_app; [done|].
    etrans; [exact Hsubrest|].
    replace (Z.to_nat (e - overlap)) with (Z.to_nat e + Z.to_nat (- overlap))%nat by lia.
    rewrite <- drop_drop. apply sublist_drop.
Qed.

(** X14: with a positive [chunk_size] and no overlap (or a gap,
    [overlap <= 0]), the chunks of a text with more words than [chunk_size]
    are longer than 50 characters, have no white space at either end and at
    most [chunk_size] words each, and their words, read in order, are a
    subsequence of the words of the text: no word is repeated or moved. *)
Theorem split_into_chunks_windows (fuel : nat) (text : string)
    (chunk_size overlap : Z) :
  (0 < chunk_size < len (Text.split text))%Z -> (overlap <= 0)%Z ->
  (len (Text.split text) <= Z.of_nat fuel)%Z ->
  exists chunks,
    split_into_chunks fuel text chunk_size overlap = Returns chunks /\
    Forall (fun c => 50 < String.length c /\ Text.strip c = c /\
                     (len (Text.split c) <= chunk_size)%Z) chunks /\
    concat (Text.split <$> chunks) `sublist_of` Text.split text.
Proof.
  intros [Hcs Hlt] Hov Hfuel. unfold split_into_chunks.
  destruct (Z.leb_spec (len (Text.split text)) chunk_size); [lia|].
  destruct (chunk_loop_windows fuel (Text.split text) chunk_size overlap
              (runs_Forall _ _) Hcs Hov 0 []) as (rest & Hloop & Hrest & Hsub);
    [lia|lia|].
  exists rest. by rewrite Hloop.
Qed.

Lemma split_into_chunks_windows_witness :
  exists chunks,
    split_into_chunks 4 alphabet_text 2 (-1) = Returns chunks /\
    Forall (fun c => 50 < String.length c /\ Text.strip c = c /\
                     (len (Text.split c) <= 2)%Z) chunks /\
    concat (Text.split <$> chunks) `sublist_of` Text.split alphabet_text.
Proof.
  apply (split_into_chunks_windows 4 alphabet_text 2 (-1)).
  - vm_compute. split; reflexivity.
  - lia.
  - vm_compute. discriminate.
Defined.

(** ** The shape of a cleaned text *)

Section CleanText.
Implicit Types (s : string) (c : ascii).

Lemma blank_out_whitelisted s : all_chars whitelisted (blank_out s) = true.
Proof.
  unfold blank_out. induction s as [|c s IH]; [done|].
  cbn [Text.map_chars all_chars]. rewrite IH, andb_true_r.
  by destruct (whitelisted c) eqn:E.
Qed.

Lemma collapse_spaces_head c s :
  Text.isspace c = false ->
  Text.collapse_spaces (String c s) = String c (Text.collapse_spaces s).
Proof. intros Hc. cbn. by rewrite Hc. Qed.

Lemma tidy_space_cons c s :
  Text.isspace c = false -> tidy (String c s) = true ->
  tidy (String " " (String c s)) = true.
Proof.
  intros Hc H.
  change (tidy (String " " (String c s)))
    with (whitelisted " "
          && (if Text.isspace " "
              then Ascii.eqb " " " " && negb (Text.isspace c) else true)
          && tidy (String c s)).
  rewrite H, Hc. reflexivity.
Qed.

Lemma tidy_collapse_spaces s :
  all_chars whitelisted s = true -> tidy (Text.collapse_spaces s) = true.
Proof.
  induction s as [|c s IH]; [done|].
  cbn [all_chars]. intros [Hc Hs]%andb_true_iff. specialize (IH Hs).
  cbn [Text.collapse_spaces]. destruct (Text.isspace c) eqn:Hsp.
  - destruct s as [|c' s']; [done|].
    destruct (Text.isspace c') eqn:Hsp'; [done|].
    rewrite collapse_spaces_head in * by done.
    by apply tidy_space_cons.
  - cbn [tidy]. by rewrite Hc, Hsp, IH.
Qed.

Lemma tidy_tail c s : tidy (String c s) = true -> tidy s = true.
Proof. cbn [tidy]. by intros [_ ?]%andb_true_iff. Qed.

Lemma tidy_lstrip s : tidy s = true -> tidy (Text.lstrip s) = true.
Proof.
  induction s as [|c s IH]; [done|]. intros H. cbn [Text.lstrip].
  destruct (Text.isspace c); [|done]. apply IH. by apply tidy_tail in H.
Qed.

Lemma rstrip_head c s :
  Text.rstrip (String c s) = EmptyString \/
  Text.rstrip (String c s) = String c (Text.rstrip s).
Proof. cbn. destruct (_ && _); [by left|by right]. Qed.

Lemma tidy_rstrip s : tidy s = true -> tidy (Text.rstrip s) = true.
Proof.
  induction s as [|c s IH]; [done|]. intros H.
  pose proof (IH (tidy_tail _ _ H)) as IH'.
  cbn [Text.rstrip].
  destruct (Text.isspace c && Text.is_empty (Text.rstrip s)) eqn:E; [done|].
  cbn [tidy] in H. apply andb_true_iff in H as [H _].
  apply andb_true_iff in H as [Hw Hsp].
  change (whitelisted c
          && (if Text.isspace c
              then Ascii.eqb c " "
                   && match Text.rstrip s with
                      | String c' _ => negb (Text.isspace c')
                      | EmptyString => true
                      end
              else true)
          && tidy (Text.rstrip s) = true).
  rewrite Hw, IH', andb_true_r. cbn [andb].
  destruct (Text.isspace c) eqn:Hc; [|done]. cbn [andb] in E.
  apply andb_true_iff in Hsp as [Heq Hnext]. rewrite Heq. cbn [andb].
  destruct s as [|c' s']; [done|].
  destruct (rstrip_head c' s') as [E'|E']; rewrite E' in *; [done|done].
Qed.

Lemma tidy_strip s : tidy s = true -> tidy (Text.strip s) = true.
Proof. intros H. by apply tidy_rstrip, tidy_lstrip. Qed.

Lemma tidy_whitelisted s : tidy s = true -> all_chars whitelisted s = true.
Proof.
  induction s as [|c s IH]; [done|]. intros H. cbn [all_chars].
  rewrite (IH (tidy_tail _ _ H)), andb_true_r.
  cbn [tidy] in H. apply andb_true_iff in H as [H _].
  by apply andb_true_iff in H as [? _].
Qed.

Lemma blank_out_id s : all_chars whitelisted s = true -> blank_out s = s.
Proof.
  induction s as [|c s IH]; [done|]. cbn [all_chars].
  intros [Hc Hs]%andb_true_iff. unfold blank_out in *. cbn. by rewrite Hc, IH.
Qed.

Lemma collapse_spaces_id s : tidy s = true -> Text.collapse_spaces s = s.
Proof.
  induction s as [|c s IH]; [done|]. intros H.
  pose proof (IH (tidy_tail _ _ H)) as IH'.
  cbn [tidy] in H. apply andb_true_iff in H as [H _].
  apply andb_true_iff in H as [_ Hsp].
  cbn [Text.collapse_spaces]. destruct (Text.isspace c) eqn:Hc; [|by rewrite IH'].
  apply andb_true_iff in Hsp as [Heq Hnext].
  apply Ascii.eqb_eq in Heq as ->.
  destruct s as [|c' s']; [done|].
  apply negb_true_iff in Hnext. by rewrite Hnext, IH'.
Qed.

Lemma tidy_no_newline s :
  tidy s = true ->
  all_chars (fun c => negb (Ascii.eqb c Text.newline)) s = true.
Proof.
  induction s as [|c s IH]; [done|]. intros H. cbn [all_chars].
  rewrite (IH (tidy_tail _ _ H)), andb_true_r.
  cbn [tidy] in H. apply andb_true_iff in H as [H _].
  apply andb_true_iff in H as [_ Hsp].
  destruct (Ascii.eqb_spec c Text.newline) as [->|]; [|done].
  by cbn in Hsp.
Qed.

(** [clean_text] is the stripped, collapsed, blanked-out text when that is
    longer than 10 characters, and the empty string otherwise. *)
Lemma clean_text_cases (text : string) :
  let t := Text.strip (Text.collapse_spaces (blank_out text)) in
  tidy t = true /\ Text.strip t = t /\
  (clean_text text = t /\ 10 < String.length t \/
   clean_text text = EmptyString /\ String.length t <= 10).
Proof.
  cbv zeta. split; [|split].
  - apply tidy_strip, tidy_collapse_spaces, blank_out_whitelisted.
  - apply strip_idemp.
  - rewrite clean_text_one_line. cbv zeta. fold (blank_out text).
    case_decide; [left|right]; split; try done. lia.
Qed.
End CleanText.

(** X15: a cleaned text is empty or longer than 10 characters; it has no
    white space at either end, holds only whitelisted characters, has the
    space as its only white-space character (so no line feed), and never two
    spaces in a row. *)
Theorem clean_text_shape (text : string) :
  (clean_text text = EmptyString \/ 10 < String.length (clean_text text)) /\
  Text.strip (clean_text text) = clean_text text /\
  tidy (clean_text text) = true /\
  all_chars whitelisted (clean_text text) = true /\
  all_chars (fun c => negb (Ascii.eqb c Text.newline)) (clean_text text) = true.
Proof.
  destruct (clean_text_cases text) as (Htidy & Hstrip & [[-> Hlen]|[-> Hlen]]).
  - split; [by right|]. split; [done|]. split; [done|].
    split; [by apply tidy_whitelisted|by apply tidy_no_newline].
  - split; [by left|]. done.
Qed.

(** X16: cleaning a cleaned text changes nothing. *)
Theorem clean_text_idempotent (text : string) :
  clean_text (clean_text text) = clean_text text.
Proof.
  destruct (clean_text_cases text) as (Htidy & Hstrip & [[-> Hlen]|[-> Hlen]]);
    [|reflexivity].
  rewrite clean_text_one_line. cbv zeta. fold (blank_out (Text.strip
    (Text.collapse_spaces (blank_out text)))).
  rewrite blank_out_id by (by apply tidy_whitelisted).
  rewrite collapse_spaces_id by done. rewrite Hstrip.
  by rewrite decide_True.
Qed.

(** ** Tokens *)

Section Tokens.
Implicit Types (s w : string) (c : ascii) (p q : ascii -> bool).

Lemma lower_char_idemp c : Text.lower_char (Text.lower_char c) = Text.lower_char c.
Proof. by destruct c as [[|] [|] [|] [|] [|] [|] [|] [|]]. Qed.

Lemma lower_idemp s : Text.lower (Text.lower s) = Text.lower s.
Proof.
  unfold Text.lower. induction s as [|c s IH]; [done|].
  cbn. by rewrite lower_char_idemp, IH.
Qed.

Lemma lower_all_chars s :
  all_chars (fun c => Ascii.eqb (Text.lower_char c) c) (Text.lower s) = true.
Proof.
  unfold Text.lower. induction s as [|c s IH]; [done|].
  cbn. rewrite IH, andb_true_r. apply Ascii.eqb_eq, lower_char_idemp.
Qed.

Lemma map_chars_fixed (f : ascii -> ascii) s :
  all_chars (fun c => Ascii.eqb (f c) c) s = true -> Text.map_chars f s = s.
Proof.
  induction s as [|c s IH]; [done|]. cbn.
  intros [Hc Hs]%andb_true_iff. apply Ascii.eqb_eq in Hc. by rewrite Hc, IH.
Qed.

(** A property of all characters of a string holds for the characters of
    each of its runs. *)
Lemma runs_all_chars q p s :
  all_chars q s = true -> Forall (fun w => all_chars q w = true) (Text.runs p s).
Proof.
  induction s as [|c s IH]; [constructor|].
  cbn [all_chars]. intros [Hc Hs]%andb_true_iff. specialize (IH Hs).
  cbn [Text.runs]. destruct (p c); [|done].
  destruct s as [|c' s']; [by repeat constructor; cbn; rewrite Hc|].
  destruct (p c').
  - destruct (Text.runs p (String c' s')) as [|w ws];
      [by repeat constructor; cbn; rewrite Hc|].
    inversion IH as [|? ? Hw Hws]; subst.
    constructor; [|done]. cbn. by rewrite Hc, Hw.
  - constructor; [|done]. cbn. by rewrite Hc.
Qed.
End Tokens.

(** X17: every token is a run of word characters of more than two
    characters, is not a stop word, and is in lower case. *)
Theorem tokenize_tokens (text t : string) :
  t ∈ tokenize text ->
  2 < String.length t /\ (t ∉ stop_words) /\
  is_run Text.isword t /\ Text.lower t = t.
Proof.
  unfold tokenize. intros [[Hlen Hstop] Hin]%list_elem_of_filter.
  split; [done|]. split; [done|]. split.
  - pose proof (runs_Forall Text.isword (Text.lower text)) as Hruns.
    rewrite Forall_forall in Hruns. by apply Hruns.
  - pose proof (runs_all_chars _ Text.isword _ (lower_all_chars text)) as Hlow.
    rewrite Forall_forall in Hlow. by apply map_chars_fixed, Hlow.
Qed.

Lemma tokenize_tokens_witness :
  "gato" ∈ tokenize "O GATO subiu no telhado" /\
  2 < String.length "gato" /\ ("gato" ∉ stop_words) /\
  is_run Text.isword "gato" /\ Text.lower "gato" = "gato".
Proof.
  assert ("gato" ∈ tokenize "O GATO subiu no telhado") as Htoken
    by (vm_compute; by left).
  split; [exact Htoken|].
  apply (tokenize_tokens "O GATO subiu no telhado" "gato"). exact Htoken.
Defined.

(** X18: the case of the letters does not matter: a text and its lower-case
    form give the same tokens, so a query and its lower-case form give the
    same search results. *)
Theorem search_similar_chunks_ignores_case (self : processor) (query : string) (top_k : Z) :
  tokenize (Text.lower query) = tokenize query /\
  search_similar_chunks self (Text.lower query) top_k
  = search_similar_chunks self query top_k.
Proof.
  assert (tokenize (Text.lower query) = tokenize query) as H
    by (unfold tokenize; by rewrite lower_idemp).
  split; [done|]. unfold search_similar_chunks. by rewrite H.
Qed.

(** ** SimpleDocumentProcessor._split_text *)

Section SplitText.
Import SimpleDocumentProcessor.
Implicit Types (words cur : list string) (chunks : list string) (w : string).

Lemma length_append (s t : string) :
  String.length (s +:+ t) = String.length s + String.length t.
Proof. induction s as [|c s IH]; [done|]. rewrite app_cons. cbn. by rewrite IH. Qed.

Lemma counted_size_app words w :
  counted_size (words ++ [w])
  = (counted_size words + Z.of_nat (String.length w) + 1)%Z.
Proof.
  unfold counted_size. induction words as [|x words IH]; cbn [foldr app] in *; lia.
Qed.

(** The counter is the length of the joined chunk plus one. *)
Lemma counted_size_join words :
  words <> [] ->
  counted_size words = (Z.of_nat (String.length (Text.join " " words)) + 1)%Z.
Proof.
  induction words as [|x words IH]; [done|]. intros _.
  destruct words as [|y words]; [cbn; lia|].
  rewrite join_cons2, !length_append. unfold counted_size in *. cbn [foldr] in *.
  rewrite IH by done. cbn [String.length]. lia.
Qed.

Lemma add_word_inv (chunk_size : Z) (seen : list string) (st : split_state) w :
  is_run notspace w -> split_inv chunk_size seen st ->
  split_inv chunk_size (seen ++ [w]) (add_word chunk_size st w).
Proof.
  destruct st as [[chunks cur] size]. intros Hw (Hseen & Hcur & Hchunks & Hsize & Hlt).
  unfold add_word.
  assert (Forall (is_run notspace) (cur ++ [w])) as Hruns
    by (apply Forall_app; split; [done|]; constructor; [done|constructor]).
  assert (cur ++ [w] <> []) as Hne by (by destruct cur).
  assert ((size + Z.of_nat (String.length w) + 1)%Z = counted_size (cur ++ [w]))
    as Hcount by (rewrite counted_size_app; lia).
  rewrite Hcount.
  destruct (Z.geb_spec (counted_size (cur ++ [w])) chunk_size) as [Hge|Hlow].
  - split; [|split; [constructor|split; [|split; [done|by left]]]].
    + rewrite fmap_app, concat_app. cbn. rewrite app_nil_r, app_nil_r.
      rewrite (split_join _ Hruns), <- Hseen. by rewrite app_assoc.
    + apply Forall_app. split; [done|]. constructor; [|constructor].
      split; [|split].
      * destruct (cur ++ [w]) as [|x l] eqn:E; [done|]. by apply join_not_empty.
      * by apply strip_join.
      * rewrite counted_size_join in Hge by done. lia.
  - split; [|split; [done|split; [done|split; [done|by right]]]].
    by rewrite app_assoc, Hseen.
Qed.

Lemma foldl_add_word_inv (chunk_size : Z) words :
  Forall (is_run notspace) words ->
  forall (seen : list string) (st : split_state),
    split_inv chunk_size seen st ->
    split_inv chunk_size (seen ++ words) (foldl (add_word chunk_size) st words).
Proof.
  induction 1 as [|w words Hw Hwords IH]; intros seen st Hst; cbn [foldl].
  - by rewrite app_nil_r.
  - replace (seen ++ w :: words) with ((seen ++ [w]) ++ words)
      by (by rewrite <- app_assoc).
    apply IH. by apply add_word_inv.
Qed.

Lemma split_text_spec (text : string) (chunk_size : Z) :
  exists full rest,
    _split_text text chunk_size = full ++ rest /\
    concat (Text.split <$> (full ++ rest)) = Text.split text /\
    Forall (fun c => c <> EmptyString /\ Text.strip c = c) (full ++ rest) /\
    Forall (fun c => (chunk_size <= Z.of_nat (String.length c) + 1)%Z) full /\
    (rest = [] \/
     exists c, rest = [c] /\ (Z.of_nat (String.length c) + 1 < chunk_size)%Z).
Proof.
  unfold _split_text.
  pose proof (foldl_add_word_inv chunk_size (Text.split text) (runs_Forall _ _)
                [] ([], [], 0%Z)) as Hinv.
  destruct (foldl (add_word chunk_size) ([], [], 0%Z) (Text.split text))
    as [[chunks cur] size].
  destruct Hinv as (Hseen & Hcur & Hchunks & Hsize & Hlt).
  { cbn. split; [done|]. split; [constructor|]. split; [constructor|].
    split; [done|by left]. }
  cbn [app] in Hseen.
  assert (Forall (fun c => c <> EmptyString /\ Text.strip c = c) chunks) as Hgood
    by (eapply Forall_impl; [exact Hchunks|]; by intros c (? & ? & _)).
  assert (Forall (fun c => (chunk_size <= Z.of_nat (String.length c) + 1)%Z) chunks)
    as Hbig by (eapply Forall_impl; [exact Hchunks|]; by intros c (_ & _ & ?)).
  case_bool_decide as Hempty.
  - exists chunks, []. rewrite app_nil_r. subst cur. rewrite app_nil_r in Hseen.
    repeat split; try done. by left.
  - exists chunks, [Text.join " " cur]. split; [done|].
    destruct Hlt as [?|Hlt]; [done|].
    split; [|split; [|split; [done|right]]].
    + rewrite fmap_app, concat_app. cbn. by rewrite app_nil_r, (split_join _ Hcur).
    + apply Forall_app. split; [done|]. constructor; [|constructor]. split.
      * destruct cur as [|x l]; [done|]. by apply join_not_empty.
      * by apply strip_join.
    + eexists. split; [done|]. rewrite Hsize, counted_size_join in Hlt by done. lia.
Qed.
End SplitText.

(** X19: [_split_text] loses no word and adds none: the words of its
    chunks, read in order, are the words of the text, whatever [chunk_size]
    is; no chunk is empty and none has white space at either end. *)
Theorem split_text_words (text : string) (chunk_size : Z) :
  let chunks := SimpleDocumentProcessor._split_text text chunk_size in
  concat (Text.split <$> chunks) = Text.split text /\
  Forall (fun c => c <> EmptyString /\ Text.strip c = c) chunks.
Proof.
  cbv zeta. destruct (split_text_spec text chunk_size)
    as (full & rest & -> & Hwords & Hgood & _). done.
Qed.

(** X20: every chunk of [_split_text] but the last has at least
    [chunk_size - 1] characters (its words, each counted with one separator,
    reached [chunk_size]); the last chunk may be one that stayed below. *)
Theorem split_text_sizes (text : string) (chunk_size : Z) :
  exists full rest,
    SimpleDocumentProcessor._split_text text chunk_size = full ++ rest /\
    Forall (fun c => (chunk_size <= Z.of_nat (String.length c) + 1)%Z) full /\
    (rest = [] \/
     exists c, rest = [c] /\ (Z.of_nat (String.length c) + 1 < chunk_size)%Z).
Proof.
  destruct (split_text_spec text chunk_size)
    as (full & rest & Heq & _ & _ & Hfull & Hrest). by exists full, rest.
Qed.

(** ** DatabaseManager: the connection URL *)

Section DatabaseUrl.
Import DatabaseManager.

Lemma database_url_of_url (url : string) (env : option string) :
  url <> EmptyString ->
  String.prefix "postgres://" url = false ->
  database_url (Some url) env = url.
Proof.
  intros Hne Hpre. unfold database_url, or_else.
  destruct url as [|c url]; [done|]. cbn [truthy negb default from_option Datatypes.id]. by rewrite Hpre.
Qed.

Lemma prefix_postgres (url : string) :
  String.prefix "postgres://" url = true ->
  exists rest, url = "postgres://" +:+ rest.
Proof.
  intros H. apply String.prefix_correct in H. cbn [String.length] in H.
  exists (skip 11 url).
  do 11 (destruct url as [|? url]; [done|]).
  cbn in H. injection H as <- <- <- <- <- <- <- <- <- <- <-. done.
Qed.

Lemma database_url_cases (arg env : option string) :
  let r := database_url arg env in
  r <> EmptyString /\ String.prefix "postgres://" r = false.
Proof.
  cbv zeta. unfold database_url.
  destruct (negb (truthy (or_else arg env))) eqn:Htruthy; [done|].
  destruct (or_else arg env) as [[|c url]|]; try done. cbn [default from_option Datatypes.id].
  destruct (String.prefix "postgres://" (String c url)) eqn:Hpre; [|done].
  destruct (prefix_postgres _ Hpre) as [rest Heq]. rewrite Heq. by destruct rest.
Qed.
End DatabaseUrl.

(** X21: the URL [DatabaseManager] connects to is never empty and never
    starts with [postgres://]: a URL of that form has this first occurrence
    replaced by [postgresql://], the rest kept; an argument that is a URL of
    another scheme is used as it is, whatever the environment holds, so giving
    the result back as the argument changes nothing. *)
Theorem database_url_normalised (arg env env' : option string) (rest : string) :
  let url := DatabaseManager.database_url arg env in
  url <> EmptyString /\
  String.prefix "postgres://" url = false /\
  DatabaseManager.database_url (Some url) env' = url /\
  DatabaseManager.database_url (Some ("postgres://" +:+ rest)) env
  = "postgresql://" +:+ rest /\
  DatabaseManager.database_url None (Some ("postgres://" +:+ rest))
  = "postgresql://" +:+ rest /\
  DatabaseManager.database_url None None = "sqlite:///chatbot_local.db".
Proof.
  cbv zeta. destruct (database_url_cases arg env) as [Hne Hpre].
  split; [done|]. split; [done|].
  split; [by apply database_url_of_url|]. by destruct rest.
Qed.

(** ** SimpleDocumentProcessor.search_relevant_chunks *)

Section SimpleSearchFacts.
Import SimpleDocumentProcessor.

Lemma contains_count (sub s : string) :
  contains sub s = true -> 0 < count sub s.
Proof.
  unfold count. induction s as [|c s IH]; cbn [contains count_from].
  - rewrite orb_false_r. intros ->. lia.
  - destruct (String.prefix sub (String c s)); [lia|]. exact IH.
Qed.

Lemma score_pos (query_words : list string) (chunk_lower : string) :
  0 < score query_words chunk_lower <->
  exists word, word ∈ query_words /\ contains word chunk_lower = true.
Proof.
  unfold score.
  set (f := fun (score : nat) (word : string) =>
              if contains word chunk_lower then score + count word chunk_lower
              else score).
  assert (forall words acc,
            0 < foldl f acc words <->
            0 < acc \/ exists word, word ∈ words /\ contains word chunk_lower = true)
    as H.
  { induction words as [|w words IH]; intros acc; cbn [foldl].
    - split; [by left|]. intros [?|(w & Hw & _)]; [done|]. by apply elem_of_nil in Hw.
    - rewrite IH. unfold f at 1. split.
      + intros [Hacc|(word & Hin & Hc)].
        * destruct (contains w chunk_lower) eqn:Hw; [|by left].
          right. exists w. split; [left|done].
        * right. exists word. split; [by right|done].
      + intros [Hacc|(word & Hin & Hc)].
        * left. destruct (contains w chunk_lower); lia.
        * apply elem_of_cons in Hin as [->|Hin].
          -- left. rewrite Hc. pose proof (contains_count _ _ Hc). lia.
          -- right. by exists word. }
  rewrite H. split; [intros [?|?]; [lia|done]|by right].
Qed.

Lemma scan_omap (query_words : list string) (chunks : list chunk) :
  scan query_words chunks = omap (entry query_words) chunks.
Proof.
  unfold scan.
  set (f := fun (scored_chunks : list scored_chunk) (chunk : chunk) => _).
  assert (forall acc, foldl f acc chunks = acc ++ omap (entry query_words) chunks)
    as H; [|apply H].
  induction chunks as [|c chunks IH]; intros acc; cbn [foldl omap list_omap].
  - by rewrite app_nil_r.
  - rewrite IH. unfold f at 1, entry at 2. cbv zeta.
    destruct (0 <? _)%nat; [by rewrite <- app_assoc|done].
Qed.

Lemma simple_insert_desc_perm c l : insert_desc c l ≡ₚ c :: l.
Proof.
  induction l as [|c' l IH]; [done|]. cbn. case_decide; [|done].
  rewrite IH. apply Permutation_swap.
Qed.

Lemma simple_sort_desc_perm l : sort_desc l ≡ₚ l.
Proof.
  induction l as [|c l IH]; [done|]. cbn. by rewrite simple_insert_desc_perm, IH.
Qed.

Lemma simple_sort_desc_sorted l :
  StronglySorted (fun a b => (similarity b <= similarity a)%R) (sort_desc l).
Proof.
  induction l as [|c l IH]; [constructor|]. cbn [sort_desc foldr].
  fold (sort_desc l). induction IH as [|c' l' Hl' IH' Hall]; cbn.
  - repeat constructor.
  - case_decide as Hlt.
    + constructor; [done|]. rewrite simple_insert_desc_perm.
      constructor; [lra|done].
    + constructor; [by constructor|]. constructor; [lra|].
      eapply Forall_impl; [exact Hall|]. intros x Hx. cbn in Hx. lra.
Qed.

Lemma slice_to_5 {A} (l : list A) : slice_to l 5 = take 5 l.
Proof.
  rewrite slice_to_take. unfold clip_index, len. cbn [Z.ltb Z.compare].
  destruct (Z.min_spec 5 (Z.of_nat (length l))) as [[? ->]|[? ->]]; [done|].
  rewrite Nat2Z.id, !firstn_all2; [done|lia|lia].
Qed.

(** Every result is the entry of one of the chunks. *)
Lemma elem_of_search (query : string) (chunks : list chunk) (r : scored_chunk) :
  r ∈ search_relevant_chunks query chunks ->
  exists c, c ∈ chunks /\ entry (Text.split (Text.lower query)) c = Some r.
Proof.
  unfold search_relevant_chunks. destruct (_ || _); [by intros ?%elem_of_nil|].
  cbv zeta. rewrite slice_to_5. intros Hr. apply subseteq_take in Hr.
  rewrite simple_sort_desc_perm, scan_omap in Hr.
  by apply list_elem_of_omap in Hr.
Qed.

Lemma entry_Some (query_words : list string) (c : chunk) (r : scored_chunk) :
  entry query_words c = Some r ->
  text r = chunk_text c /\ metadata r = chunk_metadata c /\
  (exists word, word ∈ query_words /\
                contains word (Text.lower (chunk_text c)) = true) /\
  (1 / INR (length query_words) <= similarity r)%R /\
  (0 < similarity r)%R.
Proof.
  unfold entry. cbv zeta.
  destruct (Nat.ltb_spec 0 (score query_words (Text.lower (chunk_text c))))
    as [Hpos|]; [|done].
  intros [= <-]. cbn [text similarity metadata].
  pose proof (proj1 (score_pos _ _) Hpos) as (word & Hin & Hc).
  assert (0 < INR (length query_words))%R as Hn.
  { apply lt_0_INR. destruct query_words; [by apply elem_of_nil in Hin|cbn; lia]. }
  assert (1 <= INR (score query_words (Text.lower (chunk_text c))))%R as Hs.
  { change 1%R with (INR 1). apply le_INR. lia. }
  split; [done|]. split; [done|]. split; [by exists word|].
  split.
  - apply Rmult_le_compat_r; [|done]. left. by apply Rinv_0_lt_compat.
  - apply Rdiv_lt_0_compat; lra.
Qed.

Lemma entry_is_Some (query_words : list string) (c : chunk) :
  is_Some (entry query_words c) <->
  exists word, word ∈ query_words /\
               contains word (Text.lower (chunk_text c)) = true.
Proof.
  rewrite <- score_pos. unfold entry. cbv zeta.
  destruct (Nat.ltb_spec 0 (score query_words (Text.lower (chunk_text c)))).
  - split; [done|by eexists].
  - split; [by intros [? ?]|lia].
Qed.

Lemma search_results (query : string) (chunks : list chunk) :
  let results := search_relevant_chunks query chunks in
  length results <= 5 /\
  StronglySorted (fun a b => (similarity b <= similarity a)%R) results /\
  Forall (fun r =>
            (0 < similarity r)%R /\
            exists c, c ∈ chunks /\ matches query c /\
                      text r = chunk_text c /\ metadata r = chunk_metadata c)
         results.
Proof.
  cbv zeta. split; [|split].
  - unfold search_relevant_chunks. destruct (_ || _); [cbn; lia|].
    cbv zeta. rewrite slice_to_5, length_take. lia.
  - unfold search_relevant_chunks. destruct (_ || _); [constructor|].
    cbv zeta. rewrite slice_to_5. apply StronglySorted_take, simple_sort_desc_sorted.
  - apply Forall_forall. intros r (c & Hc & Hentry)%elem_of_search.
    apply entry_Some in Hentry as (Ht & Hm & Hword & _ & Hpos).
    split; [done|]. by exists c.
Qed.

Lemma search_nil_iff (query : string) (chunks : list chunk) :
  search_relevant_chunks query chunks = [] <->
  query = EmptyString \/ forall c, c ∈ chunks -> ~ matches query c.
Proof.
  unfold search_relevant_chunks.
  case_bool_decide as Hchunks; cbn [orb].
  { subst chunks. split; [|done]. intros _. right. by intros c ?%elem_of_nil. }
  case_bool_decide as Hquery; [by split; [left|]|]. cbv zeta.
  rewrite slice_to_5, scan_omap. split.
  - intros Hnil. right. intros c Hc Hm.
    apply entry_is_Some in Hm as [r Hr].
    assert (r ∈ sort_desc (omap (entry (Text.split (Text.lower query))) chunks))
      as Hin by (rewrite simple_sort_desc_perm; apply list_elem_of_omap; eauto).
    destruct (sort_desc _) as [|x l]; [by apply elem_of_nil in Hin|done].
  - intros [?|Hno]; [done|].
    assert (omap (entry (Text.split (Text.lower query))) chunks = []) as ->; [|done].
    apply elem_of_nil_inv. intros r (c & Hc & Hentry)%list_elem_of_omap.
    apply (Hno c Hc), entry_is_Some. by eexists.
Qed.
End SimpleSearchFacts.

(** X22: [search_relevant_chunks] returns at most five results, the most
    similar first; each has a positive similarity and carries the text and
    the metadata of one of the given chunks, in whose lower-cased text some
    word of the lower-cased query occurs. *)
Theorem search_relevant_chunks_results (query : string)
    (chunks : list SimpleDocumentProcessor.chunk) :
  let results := SimpleDocumentProcessor.search_relevant_chunks query chunks in
  length results <= 5 /\
  StronglySorted
    (fun a b => (SimpleDocumentProcessor.similarity b <= SimpleDocumentProcessor.similarity a)%R)
    results /\
  Forall (fun r =>
            (0 < SimpleDocumentProcessor.similarity r)%R /\
            exists c, c ∈ chunks /\ SimpleDocumentProcessor.matches query c /\
                      SimpleDocumentProcessor.text r = SimpleDocumentProcessor.chunk_text c /\
                      SimpleDocumentProcessor.metadata r = SimpleDocumentProcessor.chunk_metadata c)
         results.
Proof. apply search_results. Qed.

(** X23: [search_relevant_chunks] returns no result exactly when the query
    is empty or no chunk contains a word of it, in particular for no chunks
    and for a query of white space only. *)
Theorem search_relevant_chunks_none (query : string)
    (chunks : list SimpleDocumentProcessor.chunk) :
  SimpleDocumentProcessor.search_relevant_chunks query chunks = [] <->
  query = EmptyString \/ forall c, c ∈ chunks -> ~ SimpleDocumentProcessor.matches query c.
Proof. apply search_nil_iff. Qed.

(** ** The simple processor, from a document to an answer *)

Section SimplePipeline.
Import SimpleDocumentProcessor.
Implicit Types (s w : string) (c : ascii) (p : ascii -> bool).

Lemma isspace_lower_char c : Text.isspace (Text.lower_char c) = Text.isspace c.
Proof. by destruct c as [[|] [|] [|] [|] [|] [|] [|] [|]]. Qed.

Lemma runs_map_chars (f : ascii -> ascii) p s :
  (forall c, p (f c) = p c) ->
  Text.runs p (Text.map_chars f s) = Text.map_chars f <$> Text.runs p s.
Proof.
  intros Hf. induction s as [|c s IH]; [done|].
  cbn [Text.map_chars Text.runs]. rewrite Hf. destruct (p c); [|done].
  destruct s as [|c' s']; [done|].
  cbn [Text.map_chars] in *. rewrite Hf. destruct (p c'); [|by rewrite IH].
  rewrite IH. by destruct (Text.runs p (String c' s')).
Qed.

Lemma split_lower s : Text.split (Text.lower s) = Text.lower <$> Text.split s.
Proof.
  apply runs_map_chars. intros c. by rewrite isspace_lower_char.
Qed.

Lemma prefix_nil s : String.prefix EmptyString s = true.
Proof. by destruct s. Qed.

Lemma prefix_cons c w s :
  String.prefix (String c w) (String c s) = String.prefix w s.
Proof. cbn. by destruct (Ascii.ascii_dec c c). Qed.

Lemma runs_cons p c s :
  Text.runs p (String c s)
  = if p c then
      match s with
      | EmptyString => [String c EmptyString]
      | String c' _ =>
          if p c' then
            match Text.runs p s with
            | w :: ws => String c w :: ws
            | [] => [String c EmptyString]
            end
          else String c EmptyString :: Text.runs p s
      end
    else Text.runs p s.
Proof. reflexivity. Qed.

(** The first run of a string that starts inside a run is a prefix of it. *)
Lemma runs_head_prefix p s c w ws :
  Text.runs p (String c s) = w :: ws -> p c = true ->
  String.prefix w (String c s) = true.
Proof.
  revert c w ws. induction s as [|c' s IH]; intros c w ws H Hc;
    rewrite runs_cons, Hc in H.
  - injection H as <- _. by rewrite prefix_cons, prefix_nil.
  - destruct (p c') eqn:Hc'.
    + destruct (Text.runs p (String c' s)) as [|w' ws'] eqn:Hruns.
      * injection H as <- _. by rewrite prefix_cons, prefix_nil.
      * injection H as <- _. rewrite prefix_cons. by eapply IH.
    + injection H as <- _. by rewrite prefix_cons, prefix_nil.
Qed.

(** A run of a string occurs in it. *)
Lemma runs_contains p s w : w ∈ Text.runs p s -> contains w s = true.
Proof.
  induction s as [|c s IH]; [by intros ?%elem_of_nil|].
  intros Hw. cbn [contains]. apply orb_true_iff.
  destruct (p c) eqn:Hc.
  - destruct (Text.runs p (String c s)) as [|w' ws] eqn:Hruns;
      [by apply elem_of_nil in Hw|].
    apply elem_of_cons in Hw as [->|Hw].
    + left. by eapply runs_head_prefix.
    + right. apply IH. rewrite runs_cons, Hc in Hruns.
      destruct s as [|c' s']; [injection Hruns as _ <-; by apply elem_of_nil in Hw|].
      destruct (p c').
      * destruct (Text.runs p (String c' s')) as [|w0 ws0];
          injection Hruns as _ <-; [by apply elem_of_nil in Hw|by right].
      * by injection Hruns as _ <-.
  - right. apply IH. by rewrite runs_cons, Hc in Hw.
Qed.

Lemma process_document_chunks (file_path text : string) :
  endswith file_path ".pdf" || endswith file_path ".txt" = true ->
  process_document file_path (Some text)
  = (fun chunk => Dict (Some chunk) (Some ∅))
      <$> _split_text text default_chunk_size.
Proof.
  unfold process_document. destruct (endswith file_path ".pdf"); [done|].
  cbn [orb]. by intros ->.
Qed.

Lemma simple_pipeline (file_path text query : string) :
  endswith file_path ".pdf" || endswith file_path ".txt" = true ->
  Text.lower query ∈ Text.split (Text.lower text) ->
  search_relevant_chunks query (process_document file_path (Some text)) <> [].
Proof.
  intros Hpath Hword. rewrite process_document_chunks by done.
  rewrite search_nil_iff. intros [->|Hno].
  - pose proof (runs_Forall (fun c => negb (Text.isspace c)) (Text.lower text))
      as Hruns. rewrite Forall_forall in Hruns.
    by destruct (Hruns _ Hword) as [? _].
  - destruct (split_text_spec text default_chunk_size)
      as (full & rest & Heq & Hwords & _).
    rewrite Heq in Hno. rewrite split_lower, <- Hwords in Hword.
    apply list_elem_of_fmap in Hword as (w & Hw & Hin).
    apply list_elem_of_In, in_concat in Hin as (ws & Hws & Hin).
    apply list_elem_of_In in Hws, Hin.
    apply list_elem_of_fmap in Hws as (c & -> & Hc).
    apply (Hno (Dict (Some c) (Some ∅))).
    { apply list_elem_of_fmap. by exists c. }
    exists (Text.lower query). split.
    + pose proof (runs_Forall (fun c => negb (Text.isspace c)) (Text.lower c))
        as Hruns. rewrite Forall_forall in Hruns.
      assert (Text.lower query ∈ Text.split (Text.lower c)) as Hq
        by (rewrite split_lower, Hw; apply list_elem_of_fmap; by exists w).
      unfold Text.split. rewrite runs_single; [by left|by apply Hruns].
    + cbn [chunk_text default from_option Datatypes.id].
      apply (runs_contains (fun c => negb (Text.isspace c))).
      fold (Text.split (Text.lower c)). rewrite split_lower, Hw.
      apply list_elem_of_fmap. by exists w.
Qed.
End SimplePipeline.

(** X24: the simple processor finds every word of a document: for a [.pdf]
    or [.txt] path and the text read from it, a query that is, up to case,
    one of the words of the text gets at least one result from the chunks of
    [process_document]. *)
Theorem simple_search_finds_words (file_path text query : string) :
  endswith file_path ".pdf" || endswith file_path ".txt" = true ->
  Text.lower query ∈ Text.split (Text.lower text) ->
  SimpleDocumentProcessor.search_relevant_chunks query
    (SimpleDocumentProcessor.process_document file_path (Some text)) <> [].
Proof. apply simple_pipeline. Qed.

Lemma simple_search_finds_words_witness :
  endswith "a.txt" ".pdf" || endswith "a.txt" ".txt" = true /\
  Text.lower "GATO" ∈ Text.split (Text.lower "O gato subiu") /\
  SimpleDocumentProcessor.search_relevant_chunks "GATO"
    (SimpleDocumentProcessor.process_document "a.txt" (Some "O gato subiu"))
  <> [].
Proof.
  assert (Text.lower "GATO" ∈ Text.split (Text.lower "O gato subiu")) as Hword
    by (vm_compute; right; by left).
  split; [reflexivity|]. split; [exact Hword|].
  apply simple_search_finds_words; [reflexivity|exact Hword].
Defined.
